(** * DiskAnalyzer: the scanner, the size helpers and the treemap layout

    A shallow embedding of [disk_analyzer.py]: the [FolderInfo] data model,
    [DiskScanner], [ScannerWorker.run], [format_size],
    [calculate_percentage] and [TreemapWidget._draw_treemap].

    Conventions.
    - A Python [int] is a [Z].
    - A Python [float] is the rational number it stands for ([Q]); rounding of
      binary64 is not modelled.  Two such numbers computed in different ways
      are compared with [==].
    - An exception is the [None] of an [option] result.
    - The file system the scanner walks is a finite tree ([Node]); symbolic
      link cycles and the interpreter's recursion limit are outside the
      model.
    - Paths are strings as pathlib's POSIX flavour prints them. *)

From Stdlib Require Import ZArith QArith Qround Lia Lqa List Bool String Ascii.
From Stdlib Require Import Permutation Sorted DecimalString.
Import ListNotations.

#[local] Set Warnings "-register-all".

Local Open Scope Z_scope.
Local Open Scope string_scope.
Local Open Scope list_scope.

(* ================================================================== *)
(** ** Data model *)

(** [@dataclass class FolderInfo]: [path: str], [size: int],
    [children: List[FolderInfo]]. *)
Inductive FolderInfo : Type :=
  mkFolderInfo (path : string) (size : Z) (children : list FolderInfo).

Definition path (f : FolderInfo) : string :=
  match f with mkFolderInfo p _ _ => p end.
Definition size (f : FolderInfo) : Z :=
  match f with mkFolderInfo _ s _ => s end.
Definition children (f : FolderInfo) : list FolderInfo :=
  match f with mkFolderInfo _ _ cs => cs end.

(** Python's builtin [sum(iterable)]: start at 0, add from the left. *)
Definition sum (l : list Z) : Z := fold_left Z.add l 0.

(** [FolderInfo.total_size]:
    [self.size + sum(child.total_size for child in self.children)]. *)
Fixpoint total_size (f : FolderInfo) : Z :=
  match f with
  | mkFolderInfo _ s cs => s + sum (map total_size cs)
  end.

(** The sum of the spec, right-nested, for comparison with [sum]. *)
Fixpoint Sigma (l : list Z) : Z :=
  match l with
  | [] => 0
  | z :: l' => z + Sigma l'
  end.

(* ================================================================== *)
(** ** The file system under the scanner *)

(** What the [pathlib] calls made by the scanner answer for one directory
    entry.  [None] stands for a raised [PermissionError]/[OSError].
    - [RegularFile st]: [is_file()] is true; [stat().st_size] is [st].
    - [Directory l]: [is_dir()] is true; [iterdir()] yields the entries [l],
      each with its name, in the order the scanner sees them.
    - [Special]: neither [is_file()] nor [is_dir()] (socket, device,
      FIFO).
    - [NoAccess]: the entry cannot even be queried: [exists()], [is_file()]
      raise (pathlib re-raises the errors it does not ignore). *)
Inductive Node : Type :=
| RegularFile (st_size : option N)
| Directory (listing : option (list (string * Node)))
| Special
| NoAccess.

(** [Path.exists()] for the root; [fs] is what the file system holds at the
    root path, if anything. *)
Definition exists_ (fs : option Node) : option bool :=
  match fs with
  | None => Some false
  | Some NoAccess => None
  | Some _ => Some true
  end.

Definition is_file (item : Node) : option bool :=
  match item with
  | RegularFile _ => Some true
  | NoAccess => None
  | _ => Some false
  end.

Definition is_dir (item : Node) : option bool :=
  match item with
  | Directory _ => Some true
  | NoAccess => None
  | _ => Some false
  end.

Definition stat_st_size (item : Node) : option N :=
  match item with
  | RegularFile st => st
  | _ => None
  end.

(** [Path.iterdir()]: only a directory can be listed
    ([NotADirectoryError] is an [OSError]). *)
Definition iterdir (p : Node) : option (list (string * Node)) :=
  match p with
  | Directory l => l
  | _ => None
  end.

(** A component that pathlib keeps: neither empty nor ".". *)
Definition is_part (s : string) : bool :=
  negb (String.eqb s "" || String.eqb s ".").

(** The components of a path (POSIX flavour), [cur] being the one that is
    read. *)
Fixpoint path_parts_from (p cur : string) : list string :=
  match p with
  | EmptyString => if is_part cur then [cur] else []
  | String c p' =>
      if Ascii.eqb c "/"
      then (if is_part cur then [cur] else []) ++ path_parts_from p' ""
      else path_parts_from p' (cur ++ String c "")%string
  end.

(** The root of a path: exactly two leading separators are kept, any
    other number of them is one. *)
Definition path_root (p : string) : string :=
  match p with
  | String "/" (String "/" (String "/" _)) => "/"
  | String "/" (String "/" _) => "//"
  | String "/" _ => "/"
  | _ => ""
  end.

(** [str(Path(p))]: the root, then the components joined by single
    separators; "." when nothing is left. *)
Definition str_Path (p : string) : string :=
  match path_root p, path_parts_from p "" with
  | EmptyString, [] => "."
  | root, parts => (root ++ String.concat "/" parts)%string
  end.

(** [str(path / name)] for an entry yielded by [iterdir()], [p] being
    [str(path)]: the name alone under ".", the name right after a root,
    and after a separator otherwise. *)
Definition joinpath (p name : string) : string :=
  if String.eqb p "." then name
  else if String.eqb p "/" || String.eqb p "//" then (p ++ name)%string
  else (p ++ "/" ++ name)%string.

(* ================================================================== *)
(** ** Disk scanning logic *)

(** [class DiskScanner].  The field [cancelled] is written by another thread
    ([ScannerWorker.stop]); [stop_after] is that thread's schedule:
    [Some k] when [stop()] lands after the scanner has read the flag [k] more
    times, [None] when it is not called while the scan runs. *)
Record DiskScanner : Type := mkDiskScanner {
  cancelled : bool;
  stop_after : option nat
}.

(** [DiskScanner.__init__]: [self.cancelled = False]. *)
Definition DiskScanner_init (schedule : option nat) : DiskScanner :=
  {| cancelled := false; stop_after := schedule |}.

(** One evaluation of [self.cancelled] by the scanning thread. *)
Definition read_cancelled (self : DiskScanner) : bool * DiskScanner :=
  if cancelled self then (true, self)
  else match stop_after self with
       | None => (false, self)
       | Some O => (true, {| cancelled := true; stop_after := None |})
       | Some (S k) => (false, {| cancelled := false; stop_after := Some k |})
       end.

(** [DiskScanner._scan_folder].  The inner [loop] is the [for item in
    path.iterdir()] loop with its accumulator [children]; it yields [None]
    when a query on an entry raises, which the outer [except] turns into
    the childless node. *)
Fixpoint _scan_folder (self : DiskScanner) (path : string) (p : Node)
  {struct p} : DiskScanner * FolderInfo :=
  let (flag, self) := read_cancelled self in
  if flag then (self, mkFolderInfo path 0 [])
  else
    match p with
    | Directory (Some entries) =>
        let fix loop (self : DiskScanner) (entries : list (string * Node))
                (children : list FolderInfo) {struct entries}
          : DiskScanner * option (list FolderInfo) :=
          match entries with
          | [] => (self, Some children)
          | (name, item) :: rest =>
              match is_file item with
              | None => (self, None)
              | Some true =>
                  match stat_st_size item with
                  | Some file_size =>
                      let file_info :=
                        mkFolderInfo (joinpath path name) (Z.of_N file_size) [] in
                      loop self rest (children ++ [file_info])
                  | None => loop self rest children
                  end
              | Some false =>
                  match is_dir item with
                  | None => (self, None)
                  | Some true =>
                      let (self', child_info) :=
                        _scan_folder self (joinpath path name) item in
                      loop self' rest (children ++ [child_info])
                  | Some false => loop self rest children
                  end
              end
          end in
        match loop self entries [] with
        | (self', Some children) => (self', mkFolderInfo path 0 children)
        | (self', None) => (self', mkFolderInfo path 0 [])
        end
    | _ => (self, mkFolderInfo path 0 [])
    end.

(** The loop of [_scan_folder], as a function of its own. *)
Fixpoint scan_items (self : DiskScanner) (path : string)
  (entries : list (string * Node)) (children : list FolderInfo)
  : DiskScanner * option (list FolderInfo) :=
  match entries with
  | [] => (self, Some children)
  | (name, item) :: rest =>
      match is_file item with
      | None => (self, None)
      | Some true =>
          match stat_st_size item with
          | Some file_size =>
              let file_info :=
                mkFolderInfo (joinpath path name) (Z.of_N file_size) [] in
              scan_items self path rest (children ++ [file_info])
          | None => scan_items self path rest children
          end
      | Some false =>
          match is_dir item with
          | None => (self, None)
          | Some true =>
              let (self', child_info) :=
                _scan_folder self (joinpath path name) item in
              scan_items self' path rest (children ++ [child_info])
          | Some false => scan_items self path rest children
          end
      end
  end.

(** [DiskScanner.scan]: [None] is the Python [None]; [fs] is what the
    file system holds at [root_path]. *)
Definition scan (self : DiskScanner) (root_path : string) (fs : option Node)
  : DiskScanner * option FolderInfo :=
  let path := str_Path root_path in
  match exists_ fs, fs with
  | Some true, Some p =>
      let (self', info) := _scan_folder self path p in (self', Some info)
  | _, _ => (self, None)
  end.

(* ================================================================== *)
(** ** Worker thread *)

(** The three signals of [ScannerWorker]. *)
Inductive Signal : Type :=
| progress (msg : string)
| finished (result : FolderInfo)
| error (msg : string).

Record ScannerWorker : Type := mkScannerWorker {
  worker_path : string;
  scanner : DiskScanner
}.

(** [ScannerWorker.__init__]; [schedule] is when [stop()] will land. *)
Definition ScannerWorker_init (path : string) (schedule : option nat)
  : ScannerWorker :=
  {| worker_path := path; scanner := DiskScanner_init schedule |}.

(** [ScannerWorker.stop]. *)
Definition stop (w : ScannerWorker) : ScannerWorker :=
  {| worker_path := worker_path w;
     scanner := {| cancelled := true; stop_after := stop_after (scanner w) |} |}.

(** [ScannerWorker.run]: the signals emitted, in order.  A [FolderInfo]
    object is always truthy, so [if result:] only tests for [None];
    [scan] catches every exception itself, so the handler of [run] is
    never entered. *)
Definition run (w : ScannerWorker) (fs : option Node) : list Signal :=
  progress ("Scanning " ++ worker_path w ++ "...")%string ::
  match snd (scan (scanner w) (worker_path w) fs) with
  | Some result => [finished result]
  | None => [error "Failed to scan folder"]
  end.

(* ================================================================== *)
(** ** Vocabulary for the scanner's properties *)

(** A scanner that nobody stops. *)
Definition unstopped : DiskScanner := DiskScanner_init None.

(** [Truncated full cut]: [cut] is [full] with some of its directory nodes
    (own size 0) replaced by the childless node of size 0 for the same
    path; everything else is kept as it is. *)
Inductive Truncated : FolderInfo -> FolderInfo -> Prop :=
| Truncated_cut p cs :
    Truncated (mkFolderInfo p 0 cs) (mkFolderInfo p 0 [])
| Truncated_keep p s cs cs' :
    Forall2 Truncated cs cs' ->
    Truncated (mkFolderInfo p s cs) (mkFolderInfo p s cs').

(** Every own size in the tree is non-negative. *)
Inductive Nonneg : FolderInfo -> Prop :=
| Nonneg_node p s cs :
    0 <= s -> Forall Nonneg cs -> Nonneg (mkFolderInfo p s cs).

(** An entry that cannot be queried. *)
Definition is_NoAccess (e : string * Node) : bool :=
  match snd e with NoAccess => true | _ => false end.

(** How many more reads of the flag will find it unset: none once it is
    set, [stop_after] before that ([None]: it is never set). *)
Definition reads_left (self : DiskScanner) : option nat :=
  if cancelled self then Some O else stop_after self.

Definition none_left (reads : option nat) : bool :=
  match reads with Some O => true | _ => false end.

Definition spend (reads : option nat) (n : nat) : option nat :=
  option_map (fun r => (r - n)%nat) reads.

(** The directories a scan that is not stopped enters at and below [p],
    counted in the order of the scan: [p] itself, then the directories
    under its entries, up to an entry that cannot be queried. *)
Fixpoint visits (p : Node) : nat :=
  match p with
  | Directory (Some entries) =>
      S ((fix below (es : list (string * Node)) : nat :=
            match es with
            | [] => O
            | (_, item) :: rest =>
                match item with
                | NoAccess => O
                | Directory _ => (visits item + below rest)%nat
                | _ => below rest
                end
            end) entries)
  | _ => 1%nat
  end.

(** The tree a scan of [p] must deliver when the flag is found unset
    [reads] more times, said by position and without any scanner: the
    directories are numbered in the order in which the scan reaches them;
    one reached while reads are left is delivered with its files and
    sub-directories, one reached when none is left is the childless node
    of size 0.  The sub-directory that follows [n] entered directories
    has [n] fewer reads left. *)
Fixpoint stopped_tree (reads : option nat) (pth : string) (p : Node)
  : FolderInfo :=
  if none_left reads then mkFolderInfo pth 0 []
  else
    match p with
    | Directory (Some entries) =>
        if existsb is_NoAccess entries then mkFolderInfo pth 0 []
        else
          mkFolderInfo pth 0
            ((fix below (reads : option nat) (es : list (string * Node))
                : list FolderInfo :=
                match es with
                | [] => []
                | (name, item) :: rest =>
                    match item with
                    | RegularFile (Some sz) =>
                        mkFolderInfo (joinpath pth name) (Z.of_N sz) []
                        :: below reads rest
                    | Directory _ =>
                        stopped_tree reads (joinpath pth name) item
                        :: below (spend reads (visits item)) rest
                    | _ => below reads rest
                    end
                end) (spend reads 1) entries)
    | _ => mkFolderInfo pth 0 []
    end.

(** The two inner walks, as functions of their own. *)
Fixpoint visits_below (es : list (string * Node)) : nat :=
  match es with
  | [] => O
  | (_, item) :: rest =>
      match item with
      | NoAccess => O
      | Directory _ => (visits item + visits_below rest)%nat
      | _ => visits_below rest
      end
  end.

Fixpoint stopped_children (reads : option nat) (pth : string)
  (es : list (string * Node)) : list FolderInfo :=
  match es with
  | [] => []
  | (name, item) :: rest =>
      match item with
      | RegularFile (Some sz) =>
          mkFolderInfo (joinpath pth name) (Z.of_N sz) []
          :: stopped_children reads pth rest
      | Directory _ =>
          stopped_tree reads (joinpath pth name) item
          :: stopped_children (spend reads (visits item)) pth rest
      | _ => stopped_children reads pth rest
      end
  end.

(** Three sub-directories and a file, for examples. *)
Definition three_dirs : Node :=
  Directory (Some
    [ ("sub1", Directory (Some [("a", RegularFile (Some 1%N))]));
      ("sub2", Directory (Some [("b", RegularFile (Some 2%N))]));
      ("sub3", Directory (Some [("c", RegularFile (Some 4%N))]));
      ("top.bin", RegularFile (Some 8%N)) ]).

(** The last signal is [finished] with this tree. *)
Definition completed_with (sigs : list Signal) (t : FolderInfo) : Prop :=
  exists msg, sigs = [progress msg; finished t].

(** The last signal is [error]. *)
Definition failed (sigs : list Signal) : Prop :=
  exists msg reason, sigs = [progress msg; error reason].

(** A small file system for examples: a readable file, a file whose size
    cannot be read, a directory that cannot be listed and a sub-directory
    with one file. *)
Definition example_tree : Node :=
  Directory (Some
    [ ("a.bin", RegularFile (Some 100%N));
      ("secret.key", RegularFile None);
      ("locked", Directory None);
      ("sub", Directory (Some [("b.bin", RegularFile (Some 7%N))])) ]).

(* ================================================================== *)
(** ** Utility functions *)

(** [x < y] and [x > y] on numbers. *)
Definition Qltb (x y : Q) : bool := negb (Qle_bool y x).
Definition Qgtb (x y : Q) : bool := Qltb y x.

(** Round to the nearest integer, ties to even. *)
Definition round_half_even (x : Q) : Z :=
  let f := Qfloor x in
  let r := (x - inject_Z f)%Q in
  if Qltb r (1 # 2) then f
  else if Qltb (1 # 2) r then f + 1
  else if Z.even f then f else f + 1.

Definition decimal (n : Z) : string := NilZero.string_of_int (Z.to_int n).

(** The format specification [:.1f]: sign, integer part, one decimal. *)
Definition format_1f (x : Q) : string :=
  let neg := Qltb x 0 in
  let tenths := round_half_even ((if neg then - x else x) * 10)%Q in
  ((if neg then "-" else "") ++
   decimal (tenths / 10) ++ "." ++ decimal (tenths mod 10))%string.

(** The [for unit in ...] loop of [format_size]; [size_bytes] is the
    variable the loop divides. *)
Fixpoint format_size_loop (units : list string) (size_bytes : Q) : string :=
  match units with
  | unit :: units' =>
      if Qltb size_bytes 1024
      then (format_1f size_bytes ++ " " ++ unit)%string
      else format_size_loop units' (size_bytes / 1024)%Q
  | [] => (format_1f size_bytes ++ " PB")%string
  end.

(** [format_size(size_bytes: int) -> str]. *)
Definition format_size (size_bytes : Z) : string :=
  format_size_loop ["B"; "KB"; "MB"; "GB"; "TB"] (inject_Z size_bytes).

(** [a / b] on two [int]s: true division; [None] is
    [ZeroDivisionError]. *)
Definition truediv (a b : Z) : option Q :=
  if (b =? 0)%Z then None else Some (inject_Z a / inject_Z b)%Q.

(** [calculate_percentage(size, total)]:
    [(size / total * 100) if total > 0 else 0]. *)
Definition calculate_percentage (size total : Z) : option Q :=
  if (total >? 0)%Z
  then match truediv size total with
       | Some q => Some (q * 100)%Q
       | None => None
       end
  else Some 0%Q.

(** [size_bytes] after [k] rounds of [size_bytes /= 1024]. *)
Fixpoint shrink (k : nat) (size_bytes : Q) : Q :=
  match k with
  | O => size_bytes
  | S k' => shrink k' (size_bytes / 1024)%Q
  end.

(* ================================================================== *)
(** ** Python objects used by the treemap *)

(** List objects live in a store and are passed by reference: a reference
    is the position of the object in the store. *)
Definition Store : Type := list (list FolderInfo).
Definition ref : Type := nat.

Definition deref (st : Store) (r : ref) : list FolderInfo := nth r st [].

(** A new list object; the objects already there are not touched. *)
Definition alloc (st : Store) (l : list FolderInfo) : Store * ref :=
  (st ++ [l], List.length st).

(** The order of [sorted]: may an element with key [ka] stay in front of
    one with key [kb]? *)
Definition in_order (reverse : bool) (ka kb : Z) : bool :=
  if reverse then (kb <=? ka)%Z else (ka <=? kb)%Z.

(** [a] may stay in front of [b], by their keys. *)
Definition key_order {A : Type} (key : A -> Z) (reverse : bool) (a b : A)
  : Prop :=
  in_order reverse (key a) (key b) = true.

(** Insert [x], which came before every element of [l], into the sorted
    [l]: it goes in front of the first element it may stay in front of. *)
Fixpoint insert_sorted {A : Type} (key : A -> Z) (reverse : bool) (x : A)
  (l : list A) : list A :=
  match l with
  | [] => [x]
  | y :: l' =>
      if in_order reverse (key x) (key y) then x :: y :: l'
      else y :: insert_sorted key reverse x l'
  end.

(** The list built by the builtin [sorted(iterable, key=..., reverse=...)]:
    a stable sort by [key], descending when [reverse]. *)
Definition sorted_list {A : Type} (l : list A) (key : A -> Z) (reverse : bool)
  : list A :=
  fold_right (insert_sorted key reverse) [] l.

(** [sorted(items, key=..., reverse=...)] on a list object: it reads
    [items] and returns a new list object. *)
Definition sorted (st : Store) (items : ref) (key : FolderInfo -> Z)
  (reverse : bool) : Store * ref :=
  alloc st (sorted_list (deref st items) key reverse).

(** [Path(p).name] (POSIX flavour): the last component of [p] that is
    neither empty nor ".", or the empty string when there is none.
    [cur] is the component being read, [last] the last one completed. *)
Fixpoint Path_name_from (p cur last : string) : string :=
  match p with
  | EmptyString => if is_part cur then cur else last
  | String c p' =>
      if Ascii.eqb c "/"
      then Path_name_from p' "" (if is_part cur then cur else last)
      else Path_name_from p' (cur ++ String c "")%string last
  end.

Definition Path_name (p : string) : string := Path_name_from p "" "".

Definition newline : string := String (ascii_of_nat 10) "".

(* ================================================================== *)
(** ** Treemap visualization *)

(** The text item made by [scene.addText], with what the code sets on it:
    [setPos], the font's point size and [setTextWidth]. *)
Record TextItem : Type := mkTextItem {
  text : string;
  pos_x : Q;
  pos_y : Q;
  point_size : Z;
  text_width : Q
}.

(** What one round of the loop adds to the scene: the [TreemapRectItem]
    ([x], [y], [w], [h], [folder_info]) and, when the label branch is taken,
    its text item. *)
Record Placed : Type := mkPlaced {
  rect_x : Q;
  rect_y : Q;
  rect_w : Q;
  rect_h : Q;
  folder_info : FolderInfo;
  label : option TextItem
}.

Definition Scene : Type := list Placed.

(** [spacing = 5]. *)
Definition spacing : Q := 5.

(** [item.total_size / total_size if total_size > 0 else 0]. *)
Definition size_ratio (item : FolderInfo) (total : Z) : option Q :=
  if (total >? 0)%Z then truediv (total_size item) total else Some 0%Q.

(** The label of the two branches:
    [if item_width > 40 and item_height > 30: ...]. *)
Definition add_label (item : FolderInfo) (current_x current_y : Q)
  (item_width item_height : Q) : option TextItem :=
  if Qgtb item_width 40 && Qgtb item_height 30 then
    let folder_name := substring 0 15 (Path_name (path item)) in
    let size_str := format_size (total_size item) in
    Some {| text := (folder_name ++ newline ++ size_str)%string;
            pos_x := current_x + 5;
            pos_y := current_y + 5;
            point_size := 7;
            text_width := item_width - 10 |}
  else None.

(** The body of [for idx, item in enumerate(sorted_items)], on the loop's
    variables [current_x], [current_y] and the scene. *)
Definition draw_item (use_horizontal : bool) (width height : Q) (total : Z)
  (vars : Q * Q * Scene) (item : FolderInfo) : option (Q * Q * Scene) :=
  let '(current_x, current_y, scene) := vars in
  match size_ratio item total with
  | None => None
  | Some ratio =>
      if use_horizontal then
        let item_width := (width * ratio)%Q in
        let item_height := height in
        let rect_item :=
          {| rect_x := current_x; rect_y := current_y;
             rect_w := item_width - spacing; rect_h := item_height;
             folder_info := item;
             label := add_label item current_x current_y
                                item_width item_height |} in
        Some ((current_x + item_width)%Q, current_y, scene ++ [rect_item])
      else
        let item_width := width in
        let item_height := (height * ratio)%Q in
        let rect_item :=
          {| rect_x := current_x; rect_y := current_y;
             rect_w := item_width; rect_h := item_height - spacing;
             folder_info := item;
             label := add_label item current_x current_y
                                item_width item_height |} in
        Some (current_x, (current_y + item_height)%Q, scene ++ [rect_item])
  end.

Fixpoint draw_loop (use_horizontal : bool) (width height : Q) (total : Z)
  (sorted_items : list FolderInfo) (vars : Q * Q * Scene)
  : option (Q * Q * Scene) :=
  match sorted_items with
  | [] => Some vars
  | item :: rest =>
      match draw_item use_horizontal width height total vars item with
      | Some vars' => draw_loop use_horizontal width height total rest vars'
      | None => None
      end
  end.

(** [TreemapWidget._draw_treemap(items, x, y, width, height, total_size)]:
    the store and the scene afterwards; [None] is a raised exception. *)
Definition _draw_treemap (st : Store) (scene : Scene) (items : ref)
  (x y width height : Q) (total : Z) : option (Store * Scene) :=
  match deref st items with
  | [] => Some (st, scene)
  | _ :: _ =>
      if Qle_bool width 0 || Qle_bool height 0 then Some (st, scene)
      else
        let (st', sorted_items) := sorted st items total_size true in
        let use_horizontal := Qle_bool height width in
        match draw_loop use_horizontal width height total
                        (deref st' sorted_items) (x, y, scene) with
        | Some (_, _, scene') => Some (st', scene')
        | None => None
        end
  end.

(* ================================================================== *)
(** ** Vocabulary for the layout's properties *)

Local Open Scope Q_scope.

(** The share of [item], as a number: the value [size_ratio] computes. *)
Definition ratio_of (item : FolderInfo) (total : Z) : Q :=
  if (total >? 0)%Z then inject_Z (total_size item) / inject_Z total else 0.

(** The loop's [item_width] and [item_height] for [item]. *)
Definition item_width (use_horizontal : bool) (width : Q) (total : Z)
  (item : FolderInfo) : Q :=
  if use_horizontal then width * ratio_of item total else width.

Definition item_height (use_horizontal : bool) (height : Q) (total : Z)
  (item : FolderInfo) : Q :=
  if use_horizontal then height else height * ratio_of item total.

(** What the loop adds to the scene for the items [l] when it starts with
    the cursor at [(cx, cy)]. *)
Fixpoint places (use_horizontal : bool) (width height : Q) (total : Z)
  (cx cy : Q) (l : list FolderInfo) : list Placed :=
  match l with
  | [] => []
  | item :: rest =>
      let iw := item_width use_horizontal width total item in
      let ih := item_height use_horizontal height total item in
      {| rect_x := cx; rect_y := cy;
         rect_w := if use_horizontal then iw - spacing else iw;
         rect_h := if use_horizontal then ih else ih - spacing;
         folder_info := item;
         label := add_label item cx cy iw ih |}
      :: places use_horizontal width height total
           (if use_horizontal then cx + iw else cx)
           (if use_horizontal then cy else cy + ih) rest
  end.

Definition Qsum (l : list Q) : Q := fold_right Qplus 0 l.

(** The shares of the items of [l], added up. *)
Definition ratios (total : Z) (l : list FolderInfo) : Q :=
  Qsum (map (fun c => ratio_of c total) l).

(** A rectangle with a positive width and a positive height; the others
    are empty. *)
Definition visible (r : Placed) : Prop := 0 < rect_w r /\ 0 < rect_h r.

(** Two visible rectangles share a point of positive area. *)
Definition overlap (a b : Placed) : Prop :=
  visible a /\ visible b /\
  rect_x a < rect_x b + rect_w b /\ rect_x b < rect_x a + rect_w a /\
  rect_y a < rect_y b + rect_h b /\ rect_y b < rect_y a + rect_h a.

(** The rectangle lies within the bounds [(x, y, width, height)]. *)
Definition inside (x y width height : Q) (r : Placed) : Prop :=
  x <= rect_x r /\ rect_x r + rect_w r <= x + width /\
  y <= rect_y r /\ rect_y r + rect_h r <= y + height.

(** The extent of a placed item along the slice axis, spacing included. *)
Definition slice_extent (use_horizontal : bool) (r : Placed) : Q :=
  if use_horizontal then rect_w r + spacing else rect_h r + spacing.

(** Two children for examples, of total size 3 and 1. *)
Definition child_a : FolderInfo :=
  mkFolderInfo "/data/videos" 0 [mkFolderInfo "/data/videos/a.mp4" 3 []].
Definition child_b : FolderInfo := mkFolderInfo "/data/notes.txt" 1 [].

(* ================================================================== *)
(** ** Vocabulary for further properties of the scanner *)

(** No file has children: a node with children has own size 0. *)
Inductive FilesAreLeaves : FolderInfo -> Prop :=
| FilesAreLeaves_node p s cs :
    (s = 0%Z \/ cs = []) -> Forall FilesAreLeaves cs ->
    FilesAreLeaves (mkFolderInfo p s cs).

(** The entries of [p] when it is a directory that can be listed. *)
Definition entries (p : Node) : list (string * Node) :=
  match iterdir p with
  | Some es => es
  | None => []
  end.

(** [Below pth p t]: the tree [t] lies over the file-system node [p] at
    the path [pth].  Its root carries [pth], and each of its children
    lies over one entry of the listing of [p], at the path pathlib gives
    that entry's name under [pth]. *)
Inductive Below : string -> Node -> FolderInfo -> Prop :=
| Below_node (pth : string) (p : Node) (s : Z) (cs : list FolderInfo) :
    Forall (fun c => exists name item,
                (In (name, item) (entries p) /\
                 Below (joinpath pth name) item c)%type) cs ->
    Below pth p (mkFolderInfo pth s cs).

(** The bytes a scan of [p] as a folder can see: the sizes of the regular
    files whose size can be read, in the directories that can be listed
    and in which every entry can be queried. *)
Fixpoint visible_bytes (p : Node) : Z :=
  match p with
  | Directory (Some entries) =>
      if existsb (fun e => match snd e with NoAccess => true | _ => false end)
                 entries
      then 0%Z
      else sum (map (fun '(_, item) =>
                       match item with
                       | RegularFile (Some sz) => Z.of_N sz
                       | Directory _ => visible_bytes item
                       | _ => 0%Z
                       end) entries)
  | _ => 0%Z
  end.

(** [later] stops no earlier than [sooner]: [sooner] has seen the flag
    set, or both have not and the flag of [later] will be set after at
    least as many reads. *)
Definition stops_no_later (sooner later : DiskScanner) : Prop :=
  cancelled sooner = true \/
  (cancelled sooner = false /\ cancelled later = false /\
   match stop_after sooner, stop_after later with
   | Some k, Some k' => (k <= k')%nat
   | _, None => True
   | None, Some _ => False
   end).

(** The bytes one directory entry contributes. *)
Definition entry_bytes (item : Node) : Z :=
  match item with
  | RegularFile (Some sz) => Z.of_N sz
  | Directory _ => visible_bytes item
  | _ => 0%Z
  end.

(* ================================================================== *)
(** ** Helpers for code that may raise *)

(** Apply [f] to the elements of [l] in order; the first exception ends
    the walk. *)
Definition mapM {A B : Type} (f : A -> option B) : list A -> option (list B) :=
  fix go (l : list A) : option (list B) :=
    match l with
    | [] => Some []
    | x :: l' =>
        match f x with
        | Some y =>
            match go l' with
            | Some ys => Some (y :: ys)
            | None => None
            end
        | None => None
        end
    end.

(* ================================================================== *)
(** ** The treemap widget *)

(** [class TreemapWidget]: the scene, [self.folder_info] and the size of
    the widget ([self.width()], [self.height()]). *)
Record TreemapWidget : Type := mkTreemapWidget {
  widget_scene : Scene;
  widget_folder_info : option FolderInfo;
  widget_width : Z;
  widget_height : Z
}.

(** [TreemapWidget.__init__], for a widget of the given size. *)
Definition TreemapWidget_init (w h : Z) : TreemapWidget :=
  {| widget_scene := []; widget_folder_info := None;
     widget_width := w; widget_height := h |}.

(** [TreemapWidget.display_treemap(folder_info)]; [None] for the argument
    is the Python [None].  The list object [folder_info.children] is the
    one object of the store handed to [_draw_treemap]. *)
Definition display_treemap (self : TreemapWidget)
  (folder_info : option FolderInfo) : option TreemapWidget :=
  let self :=
    {| widget_scene := [];
       widget_folder_info := folder_info;
       widget_width := widget_width self;
       widget_height := widget_height self |} in
  match folder_info with
  | None => Some self
  | Some f =>
      if (total_size f =? 0)%Z then Some self
      else
        let padding := 20%Z in
        let view_width := (widget_width self - 4 - padding * 2)%Z in
        let view_height := (widget_height self - 4 - padding * 2)%Z in
        if (view_width <=? 0)%Z || (view_height <=? 0)%Z then Some self
        else
          match _draw_treemap [children f] (widget_scene self) 0%nat
                  (inject_Z padding) (inject_Z padding)
                  (inject_Z view_width) (inject_Z view_height)
                  (total_size f) with
          | Some (_, scene') =>
              Some {| widget_scene := scene';
                      widget_folder_info := folder_info;
                      widget_width := widget_width self;
                      widget_height := widget_height self |}
          | None => None
          end
  end.

(** [TreemapWidget.resizeEvent]: the widget has its new size, then the
    treemap is drawn again when a folder is set. *)
Definition resizeEvent (self : TreemapWidget) (new_width new_height : Z)
  : option TreemapWidget :=
  let self :=
    {| widget_scene := widget_scene self;
       widget_folder_info := widget_folder_info self;
       widget_width := new_width;
       widget_height := new_height |} in
  match widget_folder_info self with
  | Some f => display_treemap self (Some f)
  | None => Some self
  end.

(** What can happen to the widget, and a run of such events. *)
Inductive WidgetEvent : Type :=
| Display (folder_info : option FolderInfo)
| Resize (new_width new_height : Z).

Definition widget_step (self : TreemapWidget) (ev : WidgetEvent)
  : option TreemapWidget :=
  match ev with
  | Display f => display_treemap self f
  | Resize w h => resizeEvent self w h
  end.

Fixpoint widget_run (self : TreemapWidget) (evs : list WidgetEvent)
  : option TreemapWidget :=
  match evs with
  | [] => Some self
  | ev :: evs' =>
      match widget_step self ev with
      | Some self' => widget_run self' evs'
      | None => None
      end
  end.

(** The area left for the treemap inside a widget: 20 of padding and 2 of
    frame on every side. *)
Definition view_extent (widget_size : Z) : Z := (widget_size - 44)%Z.

(** The scene is drawn for the widget's present size: nothing when no
    folder is set; otherwise every visible rectangle lies in the padded
    view and no two rectangles overlap. *)
Definition scene_fits (self : TreemapWidget) : Prop :=
  match widget_folder_info self with
  | None => widget_scene self = []
  | Some f =>
      Nonneg f /\
      (forall P, In P (widget_scene self) -> visible P ->
         inside 20 20 (inject_Z (view_extent (widget_width self)))
                      (inject_Z (view_extent (widget_height self))) P) /\
      (forall i j P R, i <> j ->
         nth_error (widget_scene self) i = Some P ->
         nth_error (widget_scene self) j = Some R -> ~ overlap P R)
  end.

Definition event_ok (ev : WidgetEvent) : Prop :=
  match ev with
  | Display (Some f) => Nonneg f
  | _ => True
  end.

(* ================================================================== *)
(** ** The main window: tree view and details table *)

(** [Path(f.path).name or f.path]: the last path segment, or the whole
    path when there is none. *)
Definition display_name (f : FolderInfo) : string :=
  let name := Path_name (path f) in
  if String.eqb name "" then path f else name.

(** [f"{percentage:.1f}%"]. *)
Definition percentage_str (percentage : Q) : string :=
  (format_1f percentage ++ "%")%string.

(** A [QTreeWidgetItem]: its column texts, the [FolderInfo] stored under
    [UserRole], its child items in order, and whether it is expanded. *)
Inductive TreeItem : Type :=
  mkTreeItem (columns : list string) (data : FolderInfo)
             (child_items : list TreeItem) (expanded : bool).

Definition item_columns (it : TreeItem) : list string :=
  match it with mkTreeItem c _ _ _ => c end.
Definition item_data (it : TreeItem) : FolderInfo :=
  match it with mkTreeItem _ d _ _ => d end.
Definition item_children (it : TreeItem) : list TreeItem :=
  match it with mkTreeItem _ _ cs _ => cs end.
Definition item_expanded (it : TreeItem) : bool :=
  match it with mkTreeItem _ _ _ e => e end.

(** [item.setExpanded(value)]. *)
Definition setExpanded (it : TreeItem) (value : bool) : TreeItem :=
  match it with mkTreeItem c d cs _ => mkTreeItem c d cs value end.

(** [DiskAnalyzerApp._create_tree_item(folder_info, total_size)].  The
    source walks the sorted children and creates an item for each; here
    the items are created child by child and put in the order of the
    sort, which is the same list ([_create_tree_item_eq] below has the
    source's form). *)
Fixpoint _create_tree_item (folder_info : FolderInfo) (total : Z)
  : option TreeItem :=
  match folder_info with
  | mkFolderInfo _ _ cs =>
      let folder_name := display_name folder_info in
      let size_str := format_size (total_size folder_info) in
      match calculate_percentage (total_size folder_info) total with
      | None => None
      | Some percentage =>
          match mapM (fun child => _create_tree_item child total) cs with
          | None => None
          | Some items =>
              Some (mkTreeItem
                      [folder_name; size_str; percentage_str percentage]
                      folder_info
                      (sorted_list items
                         (fun it => total_size (item_data it)) true)
                      false)
          end
      end
  end.

(** One row of the details table: the texts of its three cells and the
    [FolderInfo] stored with the size cell. *)
Record Row : Type := mkRow {
  name_item : string;
  size_item : string;
  size_item_data : FolderInfo;
  percentage_item : string
}.

(** The body of the loop of [_populate_details_table] for one child. *)
Definition details_row (total : Z) (child : FolderInfo) : option Row :=
  let child_name := display_name child in
  let size_str := format_size (total_size child) in
  match calculate_percentage (total_size child) total with
  | None => None
  | Some percentage =>
      Some {| name_item := child_name;
              size_item := size_str;
              size_item_data := child;
              percentage_item := percentage_str percentage |}
  end.

(** [DiskAnalyzerApp._populate_details_table(folder_info, total_size)]: the
    rows of the table afterwards. *)
Definition _populate_details_table (folder_info : FolderInfo) (total : Z)
  : option (list Row) :=
  let sorted_children :=
    sorted_list (children folder_info) total_size true in
  mapM (details_row total) sorted_children.

(** All nodes of a tree, and all folders stored in a tree of items, each
    before the ones below it. *)
Fixpoint nodes (f : FolderInfo) : list FolderInfo :=
  match f with
  | mkFolderInfo _ _ cs => f :: flat_map nodes cs
  end.

Fixpoint item_nodes (it : TreeItem) : list FolderInfo :=
  match it with
  | mkTreeItem _ d cs _ => d :: flat_map item_nodes cs
  end.

(** At every level the items come largest first. *)
Inductive ItemsSorted : TreeItem -> Prop :=
| ItemsSorted_item c d cs e :
    StronglySorted
      (fun a b => (total_size (item_data b) <= total_size (item_data a))%Z) cs ->
    Forall ItemsSorted cs ->
    ItemsSorted (mkTreeItem c d cs e).

(* ================================================================== *)
(** ** The main window: state and handlers *)

Module App.

(** [class DiskAnalyzerApp], as far as its handlers read and write it:
    [current_folder], the text of [current_folder_label], the top-level
    items of [tree_view], the rows of [details_table], whether
    [progress_bar] is visible and [select_folder_btn] enabled, the message
    of the status bar, [treemap_widget] and [scanner_worker]. *)
Record DiskAnalyzerApp : Type := mkApp {
  current_folder : option FolderInfo;
  current_folder_label : string;
  tree_view : list TreeItem;
  details_table : list Row;
  progress_bar_visible : bool;
  select_folder_btn_enabled : bool;
  status_message : string;
  treemap_widget : TreemapWidget;
  scanner_worker : option ScannerWorker
}.

(** The window after [__init__], with a treemap widget of the given
    size. *)
Definition init (treemap_width treemap_height : Z) : DiskAnalyzerApp :=
  {| current_folder := None;
     current_folder_label := "No folder selected";
     tree_view := [];
     details_table := [];
     progress_bar_visible := false;
     select_folder_btn_enabled := true;
     status_message := "Ready";
     treemap_widget := TreemapWidget_init treemap_width treemap_height;
     scanner_worker := None |}.

Definition set_views (self : DiskAnalyzerApp) (label : string)
  (items : list TreeItem) (rows : list Row) (tw : TreemapWidget)
  : DiskAnalyzerApp :=
  {| current_folder := current_folder self;
     current_folder_label := label;
     tree_view := items;
     details_table := rows;
     progress_bar_visible := progress_bar_visible self;
     select_folder_btn_enabled := select_folder_btn_enabled self;
     status_message := status_message self;
     treemap_widget := tw;
     scanner_worker := scanner_worker self |}.

Definition set_scan_state (self : DiskAnalyzerApp) (bar_visible : bool)
  (btn_enabled : bool) (message : string) : DiskAnalyzerApp :=
  {| current_folder := current_folder self;
     current_folder_label := current_folder_label self;
     tree_view := tree_view self;
     details_table := details_table self;
     progress_bar_visible := bar_visible;
     select_folder_btn_enabled := btn_enabled;
     status_message := message;
     treemap_widget := treemap_widget self;
     scanner_worker := scanner_worker self |}.

Definition set_current_folder (self : DiskAnalyzerApp)
  (f : option FolderInfo) : DiskAnalyzerApp :=
  {| current_folder := f;
     current_folder_label := current_folder_label self;
     tree_view := tree_view self;
     details_table := details_table self;
     progress_bar_visible := progress_bar_visible self;
     select_folder_btn_enabled := select_folder_btn_enabled self;
     status_message := status_message self;
     treemap_widget := treemap_widget self;
     scanner_worker := scanner_worker self |}.

Definition set_scanner_worker (self : DiskAnalyzerApp)
  (w : option ScannerWorker) : DiskAnalyzerApp :=
  {| current_folder := current_folder self;
     current_folder_label := current_folder_label self;
     tree_view := tree_view self;
     details_table := details_table self;
     progress_bar_visible := progress_bar_visible self;
     select_folder_btn_enabled := select_folder_btn_enabled self;
     status_message := status_message self;
     treemap_widget := treemap_widget self;
     scanner_worker := w |}.

(** The folder sign in front of the label, U+1F4C1 in UTF-8. *)
Definition folder_sign : string :=
  String (ascii_of_nat 240) (String (ascii_of_nat 159)
    (String (ascii_of_nat 147) (String (ascii_of_nat 129) ""))).

(** [_display_folder(folder_info)]. *)
Definition _display_folder (self : DiskAnalyzerApp)
  (folder_info : option FolderInfo) : option DiskAnalyzerApp :=
  let self :=
    set_views self (current_folder_label self) [] [] (treemap_widget self) in
  match folder_info with
  | None => Some self
  | Some f =>
      let folder_name := display_name f in
      let label := (folder_sign ++ " " ++ folder_name)%string in
      match _create_tree_item f (total_size f) with
      | None => None
      | Some root_item =>
          let root_item := setExpanded root_item true in
          match _populate_details_table f (total_size f) with
          | None => None
          | Some rows =>
              match display_treemap (treemap_widget self) (Some f) with
              | None => None
              | Some tw => Some (set_views self label [root_item] rows tw)
              end
          end
      end
  end.

(** [_on_scan_progress(message)]. *)
Definition _on_scan_progress (self : DiskAnalyzerApp) (message : string)
  : DiskAnalyzerApp :=
  set_scan_state self (progress_bar_visible self)
                 (select_folder_btn_enabled self) message.

(** [_on_scan_finished(folder_info)]. *)
Definition _on_scan_finished (self : DiskAnalyzerApp)
  (folder_info : FolderInfo) : option DiskAnalyzerApp :=
  let self := set_current_folder self (Some folder_info) in
  match _display_folder self (Some folder_info) with
  | None => None
  | Some self => Some (set_scan_state self false true "Scan complete")
  end.

(** [_on_scan_error(error)]. *)
Definition _on_scan_error (self : DiskAnalyzerApp) (error : string)
  : DiskAnalyzerApp :=
  set_scan_state self false true ("Error: " ++ error)%string.

(** [_scan_folder(path)].  [is_running] is the answer of
    [scanner_worker.isRunning()], [schedule] the moment at which the new
    worker will be stopped, if ever.  The result has the previous worker
    as [stop()] leaves it when it was running, and the window. *)
Definition _scan_folder (self : DiskAnalyzerApp) (is_running : bool)
  (folder : string) (schedule : option nat)
  : option ScannerWorker * DiskAnalyzerApp :=
  let stopped :=
    match scanner_worker self with
    | Some w => if is_running then Some (stop w) else None
    | None => None
    end in
  let self :=
    set_scanner_worker self (Some (ScannerWorker_init folder schedule)) in
  (stopped, set_scan_state self true false "Scanning...").

(** [_on_select_folder()], with the folder the dialog returned (the empty
    string when it was dismissed). *)
Definition _on_select_folder (self : DiskAnalyzerApp) (is_running : bool)
  (folder : string) (schedule : option nat) : DiskAnalyzerApp :=
  if String.eqb folder "" then self
  else snd (_scan_folder self is_running folder schedule).

(** The treemap shows the children of [folder_info] under a virtual root
    (the block shared by the two click handlers). *)
Definition zoom (self : DiskAnalyzerApp) (folder_info : FolderInfo)
  : option DiskAnalyzerApp :=
  match children folder_info with
  | [] => Some self
  | _ :: _ =>
      let virtual_root :=
        mkFolderInfo (path folder_info) 0 (children folder_info) in
      match display_treemap (treemap_widget self) (Some virtual_root) with
      | None => None
      | Some tw =>
          Some (set_views self (current_folder_label self) (tree_view self)
                          (details_table self) tw)
      end
  end.

(** [_on_tree_item_clicked(item, column)]. *)
Definition _on_tree_item_clicked (self : DiskAnalyzerApp) (item : TreeItem)
  : option DiskAnalyzerApp :=
  let folder_info := item_data item in
  match _populate_details_table folder_info (total_size folder_info) with
  | None => None
  | Some rows =>
      let self :=
        set_views self (current_folder_label self) (tree_view self) rows
                  (treemap_widget self) in
      zoom self folder_info
  end.

(** [_on_treemap_folder_selected(folder_info)]. *)
Definition _on_treemap_folder_selected (self : DiskAnalyzerApp)
  (folder_info : FolderInfo) : option DiskAnalyzerApp :=
  zoom self folder_info.

(** A signal of the worker arrives at its slot. *)
Definition deliver (self : DiskAnalyzerApp) (s : Signal)
  : option DiskAnalyzerApp :=
  match s with
  | progress message => Some (_on_scan_progress self message)
  | finished folder_info => _on_scan_finished self folder_info
  | error message => Some (_on_scan_error self message)
  end.

Fixpoint deliver_all (self : DiskAnalyzerApp) (signals : list Signal)
  : option DiskAnalyzerApp :=
  match signals with
  | [] => Some self
  | s :: rest =>
      match deliver self s with
      | Some self' => deliver_all self' rest
      | None => None
      end
  end.

(** One scan from the click to the last signal: the folder is chosen, the
    worker runs over the file system [fs] and its signals arrive in the
    order in which they were emitted. *)
Definition scan_session (self : DiskAnalyzerApp) (folder : string)
  (fs : option Node) (schedule : option nat) : option DiskAnalyzerApp :=
  let self := snd (_scan_folder self false folder schedule) in
  match scanner_worker self with
  | Some w => deliver_all self (run w fs)
  | None => Some self
  end.

(** Whatever can reach the window, and a run of such events. *)
Inductive Event : Type :=
| SelectFolder (is_running : bool) (folder : string) (schedule : option nat)
| WorkerSignal (s : Signal)
| TreeItemClicked (item : TreeItem)
| TreemapFolderSelected (folder_info : FolderInfo)
| TreemapResized (new_width new_height : Z).

Definition step (self : DiskAnalyzerApp) (ev : Event)
  : option DiskAnalyzerApp :=
  match ev with
  | SelectFolder is_running folder schedule =>
      Some (_on_select_folder self is_running folder schedule)
  | WorkerSignal s => deliver self s
  | TreeItemClicked item => _on_tree_item_clicked self item
  | TreemapFolderSelected f => _on_treemap_folder_selected self f
  | TreemapResized w h =>
      match resizeEvent (treemap_widget self) w h with
      | Some tw =>
          Some (set_views self (current_folder_label self) (tree_view self)
                          (details_table self) tw)
      | None => None
      end
  end.

Fixpoint steps (self : DiskAnalyzerApp) (evs : list Event)
  : option DiskAnalyzerApp :=
  match evs with
  | [] => Some self
  | ev :: evs' =>
      match step self ev with
      | Some self' => steps self' evs'
      | None => None
      end
  end.

(** What holds of the window at all times: the button is enabled exactly
    when the progress bar is hidden, the tree view has at most one
    top-level item, and the rows of the table come largest first. *)
Definition consistent (self : DiskAnalyzerApp) : Prop :=
  select_folder_btn_enabled self = negb (progress_bar_visible self) /\
  (List.length (tree_view self) <= 1)%nat /\
  StronglySorted (fun a b => (total_size b <= total_size a)%Z)
                 (map size_item_data (details_table self)).

End App.


Local Close Scope Q_scope.

(* ================================================================== *)
(** * Properties *)

(** Induction over the tree, with the hypothesis for every child. *)
Lemma FolderInfo_ind' (P : FolderInfo -> Prop) :
  (forall p s cs, Forall P cs -> P (mkFolderInfo p s cs)) ->
  forall f, P f.
Proof.
  intros step.
  fix IH 1.
  intros [p s cs]. apply step.
  induction cs as [|c cs IHcs]; constructor.
  - apply IH.
  - exact IHcs.
Qed.

Lemma fold_left_add_shift (l : list Z) (a : Z) :
  fold_left Z.add l a = a + fold_left Z.add l 0.
Proof.
  revert a. induction l as [|z l IH]; intros a; simpl.
  - lia.
  - rewrite IH. rewrite (IH z). lia.
Qed.

Lemma sum_cons (z : Z) (l : list Z) : sum (z :: l) = z + sum l.
Proof. unfold sum. simpl. apply fold_left_add_shift. Qed.

Lemma sum_Sigma (l : list Z) : sum l = Sigma l.
Proof.
  induction l as [|z l IH].
  - reflexivity.
  - rewrite sum_cons, IH. reflexivity.
Qed.

Lemma sum_nonneg (l : list Z) : Forall (fun z => 0 <= z) l -> 0 <= sum l.
Proof.
  induction 1 as [|z l Hz _ IH].
  - reflexivity.
  - rewrite sum_cons. lia.
Qed.

(** C2: the total size of a node is its own size plus the sum, over its
    children in order, of their total sizes; a leaf's total size is its own
    size, and a childless node of size 0 has total size 0. *)
Theorem total_size_spec :
  (forall f : FolderInfo,
      total_size f = size f + Sigma (map total_size (children f))) /\
  (forall p s, total_size (mkFolderInfo p s []) = s) /\
  (forall p, total_size (mkFolderInfo p 0 []) = 0).
Proof.
  split; [|split].
  - intros [p s cs]. simpl. rewrite sum_Sigma. reflexivity.
  - intros p s. simpl. unfold sum. simpl. lia.
  - intros p. reflexivity.
Qed.

(** Induction over the file-system tree. *)
Lemma Node_ind' (P : Node -> Prop) :
  (forall st, P (RegularFile st)) ->
  P (Directory None) ->
  (forall es, Forall (fun e => P (snd e)) es -> P (Directory (Some es))) ->
  P Special ->
  P NoAccess ->
  forall n, P n.
Proof.
  intros Hf Hd0 Hd Hs Hn.
  fix IH 1.
  intros [st | [es|] | | ].
  - apply Hf.
  - apply Hd.
    induction es as [|[nm e] es IHes]; constructor.
    + apply IH.
    + exact IHes.
  - exact Hd0.
  - exact Hs.
  - exact Hn.
Qed.


(* ------------------------------------------------------------------ *)
(** *** The scanner *)

Lemma _scan_folder_eq (self : DiskScanner) (path : string) (p : Node) :
  _scan_folder self path p =
  let (flag, self0) := read_cancelled self in
  if flag then (self0, mkFolderInfo path 0 [])
  else match iterdir p with
       | Some entries =>
           match scan_items self0 path entries [] with
           | (self', Some children) => (self', mkFolderInfo path 0 children)
           | (self', None) => (self', mkFolderInfo path 0 [])
           end
       | None => (self0, mkFolderInfo path 0 [])
       end.
Proof.
  destruct p as [st | [es|] | | ]; simpl;
    destruct (read_cancelled self) as [[|] self0]; try reflexivity.
  match goal with
  | |- match ?L _ _ _ with _ => _ end = _ =>
      assert (E : forall es s acc, L s es acc = scan_items s path es acc)
  end.
  { clear. induction es as [|[nm item] es IH]; intros s acc; simpl.
    - reflexivity.
    - destruct (is_file item) as [[|]|]; try reflexivity.
      + destruct (stat_st_size item); apply IH.
      + destruct (is_dir item) as [[|]|]; try reflexivity.
        * destruct (_scan_folder s (joinpath path nm) item). apply IH.
        * apply IH. }
  rewrite E. reflexivity.
Qed.

#[local] Arguments _scan_folder : simpl never.

Lemma read_unstopped : read_cancelled unstopped = (false, unstopped).
Proof. reflexivity. Qed.

Lemma Truncated_refl (f : FolderInfo) : Truncated f f.
Proof.
  induction f as [p s cs IH] using FolderInfo_ind'.
  apply Truncated_keep.
  induction IH; constructor; assumption.
Qed.

Lemma Nonneg_total (f : FolderInfo) : Nonneg f -> 0 <= total_size f.
Proof.
  induction f as [p s cs IH] using FolderInfo_ind'.
  intros H. inversion H as [p' s' cs' Hs Hcs]; subst. simpl.
  assert (0 <= sum (map total_size cs)); [|lia].
  apply sum_nonneg, Forall_map.
  rewrite Forall_forall in *.
  intros c Hin. apply IH; auto.
Qed.

Lemma Truncated_total (full cut : FolderInfo) :
  Truncated full cut -> Nonneg full -> total_size cut <= total_size full.
Proof.
  revert cut.
  induction full as [p s cs IH] using FolderInfo_ind'.
  intros cut HT HN.
  inversion HT as [p' cs' | p' s' cs1 cs' HF]; subst.
  - change (total_size (mkFolderInfo p 0 [])) with 0.
    apply Nonneg_total. exact HN.
  - inversion HN as [p' s' cs1 Hs Hcs]; subst. simpl.
    assert (sum (map total_size cs') <= sum (map total_size cs)); [|lia].
    clear HT HN Hs.
    induction HF as [|c c' cs cs' Hc _ IHF]; simpl.
    + lia.
    + rewrite !sum_cons.
      inversion IH; subst. inversion Hcs; subst.
      specialize (IHF ltac:(assumption) ltac:(assumption)).
      assert (total_size c' <= total_size c) by auto.
      lia.
Qed.

(** What the loop does with one entry, case by case. *)
Lemma scan_items_cons (self : DiskScanner) (path name : string) (item : Node)
  (rest : list (string * Node)) (acc : list FolderInfo) :
  scan_items self path ((name, item) :: rest) acc =
  match item with
  | RegularFile (Some sz) =>
      scan_items self path rest
        (acc ++ [mkFolderInfo (joinpath path name) (Z.of_N sz) []])
  | RegularFile None => scan_items self path rest acc
  | Directory _ =>
      scan_items (fst (_scan_folder self (joinpath path name) item)) path rest
        (acc ++ [snd (_scan_folder self (joinpath path name) item)])
  | Special => scan_items self path rest acc
  | NoAccess => (self, None)
  end.
Proof.
  destruct item as [[sz|] | l | | ]; simpl; try reflexivity.
  destruct (_scan_folder self (joinpath path name) (Directory l)).
  reflexivity.
Qed.

Section ScanItems.
Variable path : string.

Lemma scan_items_nonneg (es : list (string * Node)) :
  Forall (fun e => forall pth self,
              Nonneg (snd (_scan_folder self pth (snd e)))) es ->
  forall self acc self' cs,
    Forall Nonneg acc ->
    scan_items self path es acc = (self', Some cs) ->
    Forall Nonneg cs.
Proof.
  induction 1 as [|[nm item] es Hitem _ IH]; intros self acc self' cs Hacc E.
  - simpl in E. injection E as _ <-. exact Hacc.
  - rewrite scan_items_cons in E.
    destruct item as [[sz|] | l | | ]; try discriminate;
      try (eapply IH; [|exact E]; try exact Hacc).
    + apply Forall_app. split; [exact Hacc|].
      repeat constructor. lia.
    + apply Forall_app. split; [exact Hacc|].
      constructor; [apply Hitem | constructor].
Qed.

Lemma scan_items_unstopped (es : list (string * Node)) :
  Forall (fun e => forall pth,
              fst (_scan_folder unstopped pth (snd e)) = unstopped) es ->
  forall acc, fst (scan_items unstopped path es acc) = unstopped.
Proof.
  induction 1 as [|[nm item] es Hitem _ IH]; intros acc.
  - reflexivity.
  - rewrite scan_items_cons.
    destruct item as [[sz|] | l | | ]; try apply IH; try reflexivity.
    simpl in Hitem. rewrite Hitem. apply IH.
Qed.

Lemma scan_items_truncated (es : list (string * Node)) :
  Forall (fun e => forall pth,
              fst (_scan_folder unstopped pth (snd e)) = unstopped /\
              forall self,
                Truncated (snd (_scan_folder unstopped pth (snd e)))
                          (snd (_scan_folder self pth (snd e)))) es ->
  forall self accF accC,
    Forall2 Truncated accF accC ->
    match snd (scan_items unstopped path es accF),
          snd (scan_items self path es accC) with
    | Some full, Some cut => Forall2 Truncated full cut
    | None, None => True
    | _, _ => False
    end.
Proof.
  induction 1 as [|[nm item] es Hitem _ IH]; intros self accF accC Hacc.
  - exact Hacc.
  - rewrite !scan_items_cons.
    destruct item as [[sz|] | l | | ]; try (apply IH; exact Hacc).
    + apply IH. apply Forall2_app; [exact Hacc|].
      constructor; [apply Truncated_refl | constructor].
    + simpl in Hitem. destruct (Hitem (joinpath path nm)) as [-> HT].
      apply IH. apply Forall2_app; [exact Hacc|].
      constructor; [apply HT | constructor].
    + exact I.
Qed.
End ScanItems.

Lemma _scan_folder_nonneg (p : Node) :
  forall path self, Nonneg (snd (_scan_folder self path p)).
Proof.
  assert (leaf : forall pth, Nonneg (mkFolderInfo pth 0 [])).
  { intros pth. constructor; [lia | constructor]. }
  induction p as [st | | es IH | | ] using Node_ind'; intros path self;
    rewrite _scan_folder_eq;
    destruct (read_cancelled self) as [[|] self0]; simpl; try apply leaf.
  destruct (scan_items self0 path es []) as [self' [cs|]] eqn:E; simpl;
    [|apply leaf].
  constructor; [lia|].
  eapply scan_items_nonneg; [exact IH | constructor | exact E].
Qed.

Lemma _scan_folder_truncated (p : Node) :
  forall path,
    fst (_scan_folder unstopped path p) = unstopped /\
    forall self,
      Truncated (snd (_scan_folder unstopped path p))
                (snd (_scan_folder self path p)).
Proof.
  induction p as [st | | es IH | | ] using Node_ind'; intros path;
    rewrite (_scan_folder_eq unstopped), read_unstopped; simpl;
    try (split; [reflexivity|]; intros self; rewrite _scan_folder_eq;
         destruct (read_cancelled self) as [[|] self0]; simpl;
         apply Truncated_refl).
  assert (U : fst (scan_items unstopped path es []) = unstopped).
  { apply scan_items_unstopped.
    eapply Forall_impl; [|exact IH]. intros e He pth. apply He. }
  split.
  - destruct (scan_items unstopped path es []) as [s [cs|]]; exact U.
  - intros self. rewrite (_scan_folder_eq self).
    destruct (read_cancelled self) as [[|] self0]; simpl.
    + destruct (scan_items unstopped path es []) as [s [cs|]]; simpl;
        apply Truncated_cut.
    + pose proof (scan_items_truncated path es IH self0 [] [] (Forall2_nil _))
        as HT.
      destruct (scan_items unstopped path es []) as [s [cs|]];
        destruct (scan_items self0 path es []) as [s' [cs'|]];
        simpl in *; try contradiction.
      * apply Truncated_keep. exact HT.
      * apply Truncated_refl.
Qed.

Lemma _scan_folder_cancelled (self : DiskScanner) (path : string) (p : Node) :
  fst (read_cancelled self) = true ->
  snd (_scan_folder self path p) = mkFolderInfo path 0 [].
Proof.
  intros H. rewrite _scan_folder_eq.
  destruct (read_cancelled self) as [flag self0]. simpl in H. subst flag.
  reflexivity.
Qed.

Lemma _scan_folder_unlistable (self : DiskScanner) (path : string) (p : Node) :
  iterdir p = None ->
  snd (_scan_folder self path p) = mkFolderInfo path 0 [].
Proof.
  intros H. rewrite _scan_folder_eq, H.
  destruct (read_cancelled self) as [[|] self0]; reflexivity.
Qed.

Lemma run_present (w : ScannerWorker) (p : Node) :
  exists_ (Some p) = Some true ->
  run w (Some p) =
  [progress ("Scanning " ++ worker_path w ++ "...")%string;
   finished (snd (_scan_folder (scanner w) (str_Path (worker_path w)) p))].
Proof.
  intros H. unfold run, scan. rewrite H.
  destruct (_scan_folder (scanner w) (str_Path (worker_path w)) p).
  reflexivity.
Qed.

Lemma run_not_present (w : ScannerWorker) (fs : option Node) :
  exists_ fs <> Some true ->
  run w fs =
  [progress ("Scanning " ++ worker_path w ++ "...")%string;
   error "Failed to scan folder"].
Proof.
  intros H. unfold run, scan.
  destruct fs as [p|]; [|reflexivity].
  destruct (exists_ (Some p)) as [[|]|]; try reflexivity.
  contradiction H. reflexivity.
Qed.

(** C1, counterexample: a root directory that exists but cannot be listed
    (permission denied at the very top) is delivered as a success, with the
    childless node of size 0; no failure is reported. *)
Lemma unreadable_root_is_completed :
  exists_ (Some (Directory None)) = Some true /\
  iterdir (Directory None) = None /\
  run (ScannerWorker_init "/locked" None) (Some (Directory None)) =
    [progress "Scanning /locked..."; finished (mkFolderInfo "/locked" 0 [])] /\
  ~ failed (run (ScannerWorker_init "/locked" None) (Some (Directory None))).
Proof.
  repeat split.
  intros (msg & reason & E). discriminate E.
Qed.

(** C1, as the code has it: every run ends in exactly one of two outcomes,
    a tree delivered by [finished] or a failure delivered by [error]; the
    failure occurs exactly when the root does not exist or its existence
    cannot be determined; a nonexistent root always fails; and a root that
    exists but cannot be listed is delivered as the childless node of size
    0. *)
Theorem scan_outcomes (w : ScannerWorker) (fs : option Node) :
  ((exists t, completed_with (run w fs) t) \/ failed (run w fs)) /\
  ~ ((exists t, completed_with (run w fs) t) /\ failed (run w fs)) /\
  (failed (run w fs) <-> exists_ fs <> Some true) /\
  (fs = None -> failed (run w fs)) /\
  (forall p, fs = Some p -> exists_ fs = Some true -> iterdir p = None ->
             completed_with (run w fs)
               (mkFolderInfo (str_Path (worker_path w)) 0 [])).
Proof.
  assert (D : {exists_ fs = Some true} + {exists_ fs <> Some true}).
  { destruct (exists_ fs) as [[|]|]; (left; reflexivity) || (right; discriminate). }
  split; [|split; [|split; [|split]]].
  - destruct D as [E|E].
    + left. destruct fs as [p|]; [|discriminate E].
      eexists. eexists. apply run_present. exact E.
    + right. eexists. eexists. apply run_not_present. exact E.
  - intros [(t & m & E1) (m' & r & E2)]. rewrite E1 in E2. discriminate E2.
  - split.
    + intros (m & r & E) Hex.
      destruct fs as [p|]; [|discriminate Hex].
      rewrite (run_present w p Hex) in E. discriminate E.
    + intros E. eexists. eexists. apply run_not_present. exact E.
  - intros ->. eexists. eexists. reflexivity.
  - intros p -> Hex Hit. eexists.
    rewrite (run_present w p Hex), (_scan_folder_unlistable _ _ _ Hit).
    reflexivity.
Qed.

Lemma scan_outcomes_witness :
  failed (run (ScannerWorker_init "/missing" None) None) /\
  completed_with
    (run (ScannerWorker_init "/locked" None) (Some (Directory None)))
    (mkFolderInfo "/locked" 0 []).
Proof.
  split.
  - apply (scan_outcomes (ScannerWorker_init "/missing" None) None).
    reflexivity.
  - apply (scan_outcomes (ScannerWorker_init "/locked" None)
             (Some (Directory None))) with (p := Directory None);
      reflexivity.
Defined.

(** The positional tree and the count of entered directories, unfolded. *)
Lemma visits_eq (p : Node) :
  visits p =
  match iterdir p with
  | Some es => S (visits_below es)
  | None => 1%nat
  end.
Proof.
  destruct p as [st | [es|] | | ]; reflexivity.
Qed.

Lemma stopped_tree_eq (reads : option nat) (pth : string) (p : Node) :
  stopped_tree reads pth p =
  if none_left reads then mkFolderInfo pth 0 []
  else match iterdir p with
       | Some es =>
           if existsb is_NoAccess es then mkFolderInfo pth 0 []
           else mkFolderInfo pth 0 (stopped_children (spend reads 1) pth es)
       | None => mkFolderInfo pth 0 []
       end.
Proof.
  destruct p as [st | [es|] | | ]; try reflexivity.
  cbn [stopped_tree iterdir].
  destruct (none_left reads); [reflexivity|].
  destruct (existsb is_NoAccess es); [reflexivity|].
  f_equal. generalize (spend reads 1).
  induction es as [|[nm item] es IH]; intros r; [reflexivity|].
  cbn [stopped_children].
  destruct item as [[sz|] | l | | ]; rewrite <- ?IH; reflexivity.
Qed.

#[local] Arguments stopped_tree : simpl never.
#[local] Arguments visits : simpl never.

Lemma spend_spend (reads : option nat) (a b : nat) :
  spend (spend reads a) b = spend reads (a + b).
Proof. destruct reads as [r|]; simpl; [f_equal; lia | reflexivity]. Qed.

Lemma spend_none_left (reads : option nat) (n : nat) :
  none_left reads = true -> spend reads n = reads.
Proof. destruct reads as [[|r]|]; try discriminate. reflexivity. Qed.

(** One read of the flag, in terms of the reads that are left. *)
Lemma read_cancelled_reads (self : DiskScanner) :
  fst (read_cancelled self) = none_left (reads_left self) /\
  reads_left (snd (read_cancelled self)) = spend (reads_left self) 1.
Proof.
  unfold read_cancelled, reads_left.
  destruct self as [[|] [[|k]|]]; simpl; split; try reflexivity.
  rewrite Nat.sub_0_r. reflexivity.
Qed.

Section Positional.
Variable path : string.

Lemma scan_items_positional (es : list (string * Node)) :
  Forall (fun e => forall pth self,
              snd (_scan_folder self pth (snd e)) =
                stopped_tree (reads_left self) pth (snd e) /\
              reads_left (fst (_scan_folder self pth (snd e))) =
                spend (reads_left self) (visits (snd e))) es ->
  forall self acc,
    snd (scan_items self path es acc) =
      (if existsb is_NoAccess es then None
       else Some (acc ++ stopped_children (reads_left self) path es)) /\
    reads_left (fst (scan_items self path es acc)) =
      spend (reads_left self) (visits_below es).
Proof.
  assert (S0 : forall r, spend r 0 = r).
  { intros [r|]; simpl; [rewrite Nat.sub_0_r|]; reflexivity. }
  induction 1 as [|[nm item] es Hitem _ IH]; intros self acc.
  - simpl. rewrite app_nil_r, S0. split; reflexivity.
  - rewrite scan_items_cons. cbn [existsb visits_below stopped_children].
    destruct item as [[sz|] | l | | ]; cbn [is_NoAccess snd orb].
    + destruct (IH self (acc ++ [mkFolderInfo (joinpath path nm) (Z.of_N sz) []]))
        as [E1 E2].
      rewrite E1, E2. rewrite <- app_assoc. split; reflexivity.
    + apply IH.
    + simpl in Hitem. destruct (Hitem (joinpath path nm) self) as [T1 T2].
      destruct (IH (fst (_scan_folder self (joinpath path nm) (Directory l)))
                   (acc ++ [snd (_scan_folder self (joinpath path nm)
                                   (Directory l))])) as [E1 E2].
      rewrite E1, E2, T1, T2, spend_spend, <- app_assoc. split; reflexivity.
    + apply IH.
    + rewrite S0. split; reflexivity.
Qed.
End Positional.

(** The scanner delivers the positional tree, and leaves as many reads as
    the directories it was to enter have not used. *)
Lemma _scan_folder_positional (p : Node) :
  forall pth self,
    snd (_scan_folder self pth p) = stopped_tree (reads_left self) pth p /\
    reads_left (fst (_scan_folder self pth p)) =
      spend (reads_left self) (visits p).
Proof.
  induction p as [st | | es IH | | ] using Node_ind'; intros pth self;
    rewrite _scan_folder_eq, stopped_tree_eq, visits_eq;
    destruct (read_cancelled_reads self) as [Hf Hr];
    destruct (read_cancelled self) as [flag self0]; simpl in Hf, Hr;
    rewrite <- Hf; cbn [iterdir];
    try (destruct flag; simpl;
         [ split; [reflexivity|];
           rewrite Hr, !spend_none_left by (symmetry; exact Hf); reflexivity
         | split; [reflexivity | exact Hr] ]).
  destruct flag; simpl.
  - split; [reflexivity|].
    rewrite Hr, !spend_none_left by (symmetry; exact Hf). reflexivity.
  - destruct (scan_items_positional pth es IH self0 []) as [E1 E2].
    destruct (scan_items self0 pth es []) as [s' r]. simpl in E1, E2.
    rewrite Hr, spend_spend in E2. rewrite Hr in E1. subst r.
    destruct (existsb is_NoAccess es); simpl; split; (reflexivity || exact E2).
Qed.

(** C3: a scan of a root that exists ends with [finished], not with
    [error], whenever [stop()] is called: before the scan, at any moment
    of it, or never.  The tree it delivers is fixed by the moment of the
    stop: with the flag found unset [k] more times, the first [k]
    directories the scan reaches are delivered with their entries, and
    every directory it reaches after them is the childless node of size 0
    ([stopped_tree]); once the flag is set the scanner keeps it, and a
    worker that was stopped has no read left.  That tree is the tree of
    the scan that is not stopped with some directories cut in that way,
    and its total size is at most the total size of the scan that is not
    stopped. *)
Theorem cancelled_scan_completes (w : ScannerWorker) (p : Node) :
  exists_ (Some p) = Some true ->
  exists full cut,
    completed_with (run (ScannerWorker_init (worker_path w) None) (Some p)) full /\
    completed_with (run w (Some p)) cut /\
    ~ failed (run w (Some p)) /\
    (forall self pth d, fst (read_cancelled self) = true ->
        snd (_scan_folder self pth d) = mkFolderInfo pth 0 []) /\
    Truncated full cut /\
    total_size cut <= total_size full /\
    cut = stopped_tree (reads_left (scanner w)) (str_Path (worker_path w)) p /\
    full = stopped_tree None (str_Path (worker_path w)) p /\
    (forall self pth d, cancelled self = true ->
        _scan_folder self pth d = (self, mkFolderInfo pth 0 [])) /\
    reads_left (scanner (stop w)) = Some O /\
    (forall k, reads_left (scanner (ScannerWorker_init (worker_path w) (Some k)))
               = Some k).
Proof.
  intros Hex.
  exists (snd (_scan_folder unstopped (str_Path (worker_path w)) p)),
         (snd (_scan_folder (scanner w) (str_Path (worker_path w)) p)).
  split; [|split; [|split; [|split; [|split; [|split; [|split; [|split;
    [|split; [|split]]]]]]]]].
  - eexists. apply (run_present (ScannerWorker_init (worker_path w) None) p Hex).
  - eexists. apply (run_present w p Hex).
  - intros (m & r & E). rewrite (run_present w p Hex) in E. discriminate E.
  - intros self pth d. apply _scan_folder_cancelled.
  - apply _scan_folder_truncated.
  - apply Truncated_total.
    + apply _scan_folder_truncated.
    + apply _scan_folder_nonneg.
  - apply _scan_folder_positional.
  - apply (_scan_folder_positional p (str_Path (worker_path w)) unstopped).
  - intros self pth d Hc. rewrite _scan_folder_eq.
    unfold read_cancelled. rewrite Hc. reflexivity.
  - reflexivity.
  - intros k. reflexivity.
Qed.

(** Stopped after two reads: the root and [sub1] are entered, [sub2] and
    [sub3] are cut, and the file that follows them is still listed. *)
Lemma cancelled_scan_completes_witness :
  exists full cut,
    completed_with (run (ScannerWorker_init "/data" None) (Some three_dirs)) full /\
    completed_with (run (ScannerWorker_init "/data" (Some 2%nat))
                        (Some three_dirs)) cut /\
    cut = mkFolderInfo "/data" 0
            [mkFolderInfo "/data/sub1" 0 [mkFolderInfo "/data/sub1/a" 1 []];
             mkFolderInfo "/data/sub2" 0 [];
             mkFolderInfo "/data/sub3" 0 [];
             mkFolderInfo "/data/top.bin" 8 []] /\
    total_size cut <= total_size full.
Proof.
  destruct (cancelled_scan_completes
              (ScannerWorker_init "/data" (Some 2%nat)) three_dirs eq_refl)
    as (full & cut & Hf & Hc & _ & _ & _ & Hle & Ecut & _).
  exists full, cut. split; [exact Hf|]. split; [exact Hc|].
  split; [|exact Hle].
  rewrite Ecut. reflexivity.
Defined.

(** The scan of [example_tree], unstopped and stopped after two reads of
    the flag. *)
Example scan_example_unstopped :
  run (ScannerWorker_init "/data" None) (Some example_tree) =
  [progress "Scanning /data...";
   finished (mkFolderInfo "/data" 0
     [mkFolderInfo "/data/a.bin" 100 [];
      mkFolderInfo "/data/locked" 0 [];
      mkFolderInfo "/data/sub" 0 [mkFolderInfo "/data/sub/b.bin" 7 []]])].
Proof. reflexivity. Qed.

(** The spec's example: one file of 100 bytes and one empty
    sub-directory. *)
Example scan_file_and_empty_dir :
  let fs := Directory (Some [("f", RegularFile (Some 100%N));
                             ("d", Directory (Some []))]) in
  snd (scan unstopped "/r" (Some fs)) =
    Some (mkFolderInfo "/r" 0
            [mkFolderInfo "/r/f" 100 []; mkFolderInfo "/r/d" 0 []]) /\
  option_map total_size (snd (scan unstopped "/r" (Some fs))) = Some 100%Z.
Proof. split; reflexivity. Qed.

(** A worker stopped before it runs delivers the root alone. *)
Example scan_example_stopped_first :
  run (stop (ScannerWorker_init "/data" None)) (Some example_tree) =
  [progress "Scanning /data..."; finished (mkFolderInfo "/data" 0 [])].
Proof. reflexivity. Qed.

Example scan_example_stopped :
  run (ScannerWorker_init "/data" (Some 2%nat)) (Some example_tree) =
  [progress "Scanning /data...";
   finished (mkFolderInfo "/data" 0
     [mkFolderInfo "/data/a.bin" 100 [];
      mkFolderInfo "/data/locked" 0 [];
      mkFolderInfo "/data/sub" 0 []])].
Proof. reflexivity. Qed.





(** C4: every error an entry raises is to be absorbed at that entry, and
    a sub-directory whose listing fails is still to appear as a childless
    node of size 0.  The code falls short of this at an entry whose
    [is_file()] raises: that call is outside the inner [try], so the
    outer handler returns the childless node for the whole directory.
    Here the listing holds a readable file, a sub-directory that cannot
    be listed and such an entry: the unlistable sub-directory does not
    appear as a childless node, and the readable file is lost as well.
    Without the third entry both are children. *)
Lemma unqueryable_entry_loses_siblings :
  is_file NoAccess = None /\
  snd (scan unstopped "/data"
         (Some (Directory (Some [("a.bin", RegularFile (Some 100%N));
                                 ("locked", Directory None);
                                 ("odd", NoAccess)])))) =
    Some (mkFolderInfo "/data" 0 []) /\
  snd (scan unstopped "/data"
         (Some (Directory (Some [("a.bin", RegularFile (Some 100%N));
                                 ("locked", Directory None)])))) =
    Some (mkFolderInfo "/data" 0
            [mkFolderInfo "/data/a.bin" 100 [];
             mkFolderInfo "/data/locked" 0 []]).
Proof. repeat split. Qed.

(* ------------------------------------------------------------------ *)
(** *** The utility functions *)

Lemma Qltb_lt (x y : Q) : Qltb x y = true <-> (x < y)%Q.
Proof.
  unfold Qltb. rewrite negb_true_iff.
  split.
  - intros H. apply Qnot_le_lt. intros Hle.
    apply Qle_bool_iff in Hle. congruence.
  - intros H. destruct (Qle_bool y x) eqn:E; [|reflexivity].
    apply Qle_bool_iff in E. exfalso. exact (Qlt_not_le _ _ H E).
Qed.

Lemma Qltb_ge (x y : Q) : Qltb x y = false <-> (y <= x)%Q.
Proof.
  unfold Qltb. rewrite negb_false_iff. apply Qle_bool_iff.
Qed.

Example format_size_examples :
  format_size 1023 = "1023.0 B" /\
  format_size 1024 = "1.0 KB" /\
  format_size 1126 = "1.1 KB" /\
  format_size 1178 = "1.2 KB" /\
  format_size (5 * 1024 ^ 3) = "5.0 GB" /\
  format_size (1024 ^ 5) = "1.0 PB" /\
  format_size (-5) = "-5.0 B".
Proof. vm_compute. repeat split. Qed.

Lemma inject_Z_pow1024_succ (c : Z) (j : nat) :
  (inject_Z (c * 1024 ^ Z.of_nat (S j)) ==
   inject_Z (c * 1024 ^ Z.of_nat j) * 1024)%Q.
Proof.
  rewrite Nat2Z.inj_succ, Z.pow_succ_r by lia.
  replace (c * (1024 * 1024 ^ Z.of_nat j))%Z
    with (c * 1024 ^ Z.of_nat j * 1024)%Z by ring.
  rewrite inject_Z_mult. reflexivity.
Qed.

Lemma shrink_ge (j : nat) :
  forall (q : Q) (c : Z),
    (inject_Z (c * 1024 ^ Z.of_nat j) <= q)%Q -> (inject_Z c <= shrink j q)%Q.
Proof.
  induction j as [|j IH]; intros q c H.
  - simpl in *. rewrite Z.mul_1_r in H. exact H.
  - cbn [shrink]. apply IH.
    rewrite inject_Z_pow1024_succ in H.
    apply Qle_shift_div_l; [reflexivity | exact H].
Qed.

Lemma shrink_lt (j : nat) :
  forall (q : Q) (c : Z),
    (q < inject_Z (c * 1024 ^ Z.of_nat j))%Q -> (shrink j q < inject_Z c)%Q.
Proof.
  induction j as [|j IH]; intros q c H.
  - simpl in *. rewrite Z.mul_1_r in H. exact H.
  - cbn [shrink]. apply IH.
    rewrite inject_Z_pow1024_succ in H.
    apply Qlt_shift_div_r; [reflexivity | exact H].
Qed.

(** The loop stops at the first unit for which the divided value is below
    1024, or falls through to PB. *)
Lemma format_size_loop_stops (units : list string) :
  forall (k : nat) (q : Q),
    (k <= List.length units)%nat ->
    (forall j, (j < k)%nat -> (1024 <= shrink j q)%Q) ->
    ((k < List.length units)%nat -> (shrink k q < 1024)%Q) ->
    format_size_loop units q =
    (format_1f (shrink k q) ++ " " ++ nth k units "PB")%string.
Proof.
  induction units as [|u units IH]; intros k q Hk Hge Hlt.
  - simpl in Hk. assert (k = 0%nat) by lia. subst k. reflexivity.
  - destruct k as [|k].
    + cbn [format_size_loop shrink nth].
      assert (E : Qltb q 1024 = true).
      { apply Qltb_lt. apply Hlt. simpl. lia. }
      rewrite E. reflexivity.
    + cbn [format_size_loop shrink nth].
      assert (E : Qltb q 1024 = false).
      { apply Qltb_ge. apply (Hge 0%nat). lia. }
      rewrite E. apply IH.
      * simpl in Hk. lia.
      * intros j Hj. apply (Hge (S j)). lia.
      * intros Hk'. apply Hlt. simpl. lia.
Qed.

(** C9: [format_size] divides by 1024 until the value is below 1024 and
    prints it with one decimal and the unit reached, B, KB, MB, GB or TB;
    0 gives "0.0 B", 1536 gives "1.5 KB", 1048576 gives "1.0 MB"; and every
    value from 1024^5 on falls through the five units and is printed,
    divided five times, with the suffix PB. *)
Theorem format_size_spec :
  format_size 0 = "0.0 B" /\
  format_size 1536 = "1.5 KB" /\
  format_size 1048576 = "1.0 MB" /\
  (forall (k : nat) (n : Z),
      (k <= 4)%nat ->
      (k = 0%nat \/ 1024 ^ Z.of_nat k <= n) ->
      n < 1024 ^ Z.of_nat (S k) ->
      format_size n =
      (format_1f (shrink k (inject_Z n)) ++ " " ++
       nth k ["B"; "KB"; "MB"; "GB"; "TB"] "PB")%string) /\
  (forall n : Z,
      1024 ^ 5 <= n ->
      format_size n = (format_1f (shrink 5 (inject_Z n)) ++ " PB")%string).
Proof.
  split; [reflexivity|]. split; [reflexivity|]. split; [reflexivity|].
  split.
  - intros k n Hk Hlo Hhi. unfold format_size.
    apply format_size_loop_stops.
    + simpl. lia.
    + intros j Hj.
      apply (shrink_ge j (inject_Z n) 1024). rewrite <- Zle_Qle.
      destruct Hlo as [->|Hlo]; [lia|].
      apply Z.le_trans with (2 := Hlo).
      replace (1024 * 1024 ^ Z.of_nat j) with (1024 ^ Z.of_nat (S j)).
      * apply Z.pow_le_mono_r; lia.
      * rewrite Nat2Z.inj_succ, Z.pow_succ_r by lia. reflexivity.
    + intros _.
      apply (shrink_lt k (inject_Z n) 1024). rewrite <- Zlt_Qlt.
      rewrite Nat2Z.inj_succ, Z.pow_succ_r in Hhi by lia. exact Hhi.
  - intros n Hn. unfold format_size.
    rewrite (format_size_loop_stops _ 5%nat); [reflexivity | | | ].
    + simpl. lia.
    + intros j Hj.
      apply (shrink_ge j (inject_Z n) 1024). rewrite <- Zle_Qle.
      apply Z.le_trans with (2 := Hn).
      replace (1024 * 1024 ^ Z.of_nat j) with (1024 ^ Z.of_nat (S j)).
      * apply Z.pow_le_mono_r; lia.
      * rewrite Nat2Z.inj_succ, Z.pow_succ_r by lia. reflexivity.
    + simpl. lia.
Qed.

Lemma format_size_spec_witness :
  format_size (3 * 1024 ^ 2) = "3.0 MB" /\
  format_size (2 * 1024 ^ 5) = "2.0 PB".
Proof.
  split.
  - rewrite (proj1 (proj2 (proj2 (proj2 format_size_spec)))
               2%nat (3 * 1024 ^ 2)).
    + reflexivity.
    + lia.
    + right. vm_compute. discriminate.
    + reflexivity.
  - rewrite (proj2 (proj2 (proj2 (proj2 format_size_spec))) (2 * 1024 ^ 5)).
    + reflexivity.
    + vm_compute. discriminate.
Defined.

(** C10: [calculate_percentage] never raises; it returns
    [size / total * 100] when [total > 0] and 0 otherwise, so its division
    never meets a zero divisor. *)
Theorem calculate_percentage_guarded (size total : Z) :
  calculate_percentage size total <> None /\
  (0 < total ->
   calculate_percentage size total =
   Some (inject_Z size / inject_Z total * 100)%Q) /\
  (total <= 0 -> calculate_percentage size total = Some 0%Q) /\
  (0 < total -> truediv size total <> None).
Proof.
  unfold calculate_percentage, truediv.
  destruct (Z.gtb_spec total 0) as [H|H].
  - assert (E : (total =? 0)%Z = false) by (apply Z.eqb_neq; lia).
    rewrite E. repeat split; try discriminate; intros; lia.
  - repeat split; try discriminate; intros; lia.
Qed.

Lemma calculate_percentage_guarded_witness :
  calculate_percentage 1 4 = Some (inject_Z 1 / inject_Z 4 * 100)%Q /\
  calculate_percentage 1 0 = Some 0%Q.
Proof.
  split.
  - apply (calculate_percentage_guarded 1 4). lia.
  - apply (calculate_percentage_guarded 1 0). lia.
Defined.

(* ------------------------------------------------------------------ *)
(** *** The builtin [sorted] and the store *)

Section SortedList.
Context {A : Type} (key : A -> Z) (reverse : bool).

Lemma in_order_total (ka kb : Z) :
  in_order reverse ka kb = false -> in_order reverse kb ka = true.
Proof. unfold in_order. destruct reverse; lia. Qed.

Lemma in_order_trans (ka kb kc : Z) :
  in_order reverse ka kb = true -> in_order reverse kb kc = true ->
  in_order reverse ka kc = true.
Proof. unfold in_order. destruct reverse; lia. Qed.

Lemma in_order_refl (ka : Z) : in_order reverse ka ka = true.
Proof. unfold in_order. destruct reverse; lia. Qed.

Lemma insert_sorted_perm (x : A) (l : list A) :
  Permutation (insert_sorted key reverse x l) (x :: l).
Proof.
  induction l as [|y l IH]; simpl.
  - apply Permutation_refl.
  - destruct (in_order reverse (key x) (key y)).
    + apply Permutation_refl.
    + apply perm_trans with (y :: x :: l).
      * apply perm_skip. exact IH.
      * apply perm_swap.
Qed.

Lemma sorted_list_perm (l : list A) :
  Permutation (sorted_list l key reverse) l.
Proof.
  induction l as [|x l IH]; simpl.
  - apply perm_nil.
  - apply perm_trans with (x :: sorted_list l key reverse).
    + apply insert_sorted_perm.
    + apply perm_skip. exact IH.
Qed.

Lemma insert_sorted_strongly (x : A) (l : list A) :
  StronglySorted (key_order key reverse) l ->
  StronglySorted (key_order key reverse) (insert_sorted key reverse x l).
Proof.
  induction 1 as [|y l Hl IH Hy]; simpl.
  - repeat constructor.
  - destruct (in_order reverse (key x) (key y)) eqn:E.
    + constructor; [constructor; assumption|].
      constructor; [exact E|].
      eapply Forall_impl; [|exact Hy].
      intros z Hz. unfold key_order in *. eapply in_order_trans; eassumption.
    + constructor; [exact IH|].
      eapply Permutation_Forall.
      * apply Permutation_sym, insert_sorted_perm.
      * constructor; [|exact Hy].
        apply in_order_total. exact E.
Qed.

Lemma sorted_list_strongly (l : list A) :
  StronglySorted (key_order key reverse) (sorted_list l key reverse).
Proof.
  induction l as [|x l IH]; simpl.
  - constructor.
  - apply insert_sorted_strongly. exact IH.
Qed.

(** Stability: the elements with a given key keep their order. *)
Lemma insert_sorted_filter (k : Z) (x : A) (l : list A) :
  filter (fun a => (key a =? k)%Z) (insert_sorted key reverse x l) =
  filter (fun a => (key a =? k)%Z) (x :: l).
Proof.
  induction l as [|y l IH]; [reflexivity|].
  cbn [insert_sorted].
  destruct (in_order reverse (key x) (key y)) eqn:E; [reflexivity|].
  assert (Hne : key x <> key y).
  { intros Heq. rewrite Heq, in_order_refl in E. discriminate E. }
  cbn [filter] in *. rewrite IH.
  destruct (Z.eqb_spec (key x) k) as [Hx|Hx];
    destruct (Z.eqb_spec (key y) k) as [Hy|Hy]; try reflexivity.
  congruence.
Qed.

Lemma sorted_list_stable (k : Z) (l : list A) :
  filter (fun a => (key a =? k)%Z) (sorted_list l key reverse) =
  filter (fun a => (key a =? k)%Z) l.
Proof.
  induction l as [|x l IH]; [reflexivity|].
  cbn [sorted_list fold_right].
  rewrite insert_sorted_filter. cbn [filter].
  fold (sorted_list l key reverse). rewrite IH. reflexivity.
Qed.
End SortedList.

Lemma StronglySorted_weaken {A : Type} (R1 R2 : A -> A -> Prop) (l : list A) :
  (forall a b, R1 a b -> R2 a b) ->
  StronglySorted R1 l -> StronglySorted R2 l.
Proof.
  intros HR. induction 1 as [|a l _ IH Ha]; constructor.
  - exact IH.
  - eapply Forall_impl; [|exact Ha]. intros b. apply HR.
Qed.

Lemma deref_alloc_old (st : Store) (l : list FolderInfo) (r : ref) :
  (r < List.length st)%nat -> deref (fst (alloc st l)) r = deref st r.
Proof. intros H. unfold deref, alloc. simpl. apply app_nth1. exact H. Qed.

Lemma deref_alloc_new (st : Store) (l : list FolderInfo) :
  deref (fst (alloc st l)) (snd (alloc st l)) = l.
Proof.
  unfold deref, alloc. simpl.
  rewrite app_nth2, Nat.sub_diag by lia. reflexivity.
Qed.

(* ------------------------------------------------------------------ *)
(** *** The treemap layout *)

Local Open Scope Q_scope.

Lemma size_ratio_total (item : FolderInfo) (total : Z) :
  size_ratio item total = Some (ratio_of item total).
Proof.
  unfold size_ratio, ratio_of, truediv.
  destruct (Z.gtb_spec total 0) as [H|H]; [|reflexivity].
  assert (E : (total =? 0)%Z = false) by (apply Z.eqb_neq; lia).
  rewrite E. reflexivity.
Qed.

Lemma draw_item_places (uh : bool) (width height : Q) (total : Z)
  (cx cy : Q) (scene : Scene) (item : FolderInfo) :
  draw_item uh width height total (cx, cy, scene) item =
  Some (if uh then cx + item_width uh width total item else cx,
        if uh then cy else cy + item_height uh height total item,
        scene ++ places uh width height total cx cy [item])%Q.
Proof.
  unfold draw_item. rewrite size_ratio_total.
  destruct uh; reflexivity.
Qed.

Lemma draw_loop_cons (uh : bool) (width height : Q) (total : Z)
  (item : FolderInfo) (rest : list FolderInfo) (vars vars' : Q * Q * Scene) :
  draw_item uh width height total vars item = Some vars' ->
  draw_loop uh width height total (item :: rest) vars =
  draw_loop uh width height total rest vars'.
Proof. intros H. cbn [draw_loop]. rewrite H. reflexivity. Qed.

Lemma draw_loop_places (uh : bool) (width height : Q) (total : Z)
  (l : list FolderInfo) :
  forall cx cy scene,
  exists cx' cy',
    draw_loop uh width height total l (cx, cy, scene) =
    Some (cx', cy', scene ++ places uh width height total cx cy l).
Proof.
  induction l as [|item rest IH]; intros cx cy scene.
  - exists cx, cy. simpl. rewrite app_nil_r. reflexivity.
  - rewrite (draw_loop_cons _ _ _ _ _ _ _ _ (draw_item_places _ _ _ _ _ _ _ _)).
    destruct (IH (if uh then cx + item_width uh width total item else cx)%Q
                 (if uh then cy else cy + item_height uh height total item)%Q
                 (scene ++ places uh width height total cx cy [item]))
      as (cx' & cy' & E).
    exists cx', cy'. etransitivity; [exact E|].
    rewrite <- app_assoc. reflexivity.
Qed.

Lemma sum_perm (l l' : list Z) : Permutation l l' -> sum l = sum l'.
Proof.
  rewrite !sum_Sigma.
  induction 1; simpl; lia.
Qed.

(** What a call does to the store and the scene. *)
Lemma _draw_treemap_result (st : Store) (scene : Scene) (items : ref)
  (x y width height : Q) (total : Z) :
  exists st' produced,
    _draw_treemap st scene items x y width height total =
      Some (st', scene ++ produced) /\
    (forall r, (r < List.length st)%nat -> deref st' r = deref st r) /\
    (0 < width -> 0 < height ->
     produced = places (Qle_bool height width) width height total x y
                       (sorted_list (deref st items) total_size true)) /\
    (deref st items = [] \/ width <= 0 \/ height <= 0 ->
     produced = [] /\ st' = st).
Proof.
  unfold _draw_treemap.
  destruct (deref st items) as [|c l] eqn:El.
  - exists st, []. rewrite app_nil_r. repeat split; auto.
  - destruct (Qle_bool width 0 || Qle_bool height 0) eqn:Eb.
    + exists st, []. rewrite app_nil_r. repeat split; auto.
      intros Hw Hh. exfalso.
      apply orb_true_iff in Eb. destruct Eb as [E|E];
        apply Qle_bool_iff in E; lra.
    + unfold sorted. rewrite El.
      set (s := sorted_list (c :: l) total_size true).
      pose proof (deref_alloc_new st s) as Hnew.
      pose proof (fun r => deref_alloc_old st s r) as Hold.
      destruct (alloc st s) as [st' r']. simpl in Hnew, Hold. rewrite Hnew.
      destruct (draw_loop_places (Qle_bool height width) width height total
                  s x y scene) as (cx' & cy' & E).
      rewrite E.
      exists st', (places (Qle_bool height width) width height total x y s).
      split; [reflexivity|]. split; [exact Hold|]. split; [reflexivity|].
      intros Hdeg. exfalso.
      apply orb_false_iff in Eb. destruct Eb as [E1 E2].
      destruct Hdeg as [Hd|[Hd|Hd]]; [discriminate Hd | |];
        apply Qle_bool_iff in Hd; congruence.
Qed.

Lemma ratio_of_nonneg (item : FolderInfo) (total : Z) :
  (0 <= total_size item)%Z -> 0 <= ratio_of item total.
Proof.
  intros H. unfold ratio_of.
  destruct (Z.gtb_spec total 0) as [Ht|Ht]; [|lra].
  apply Qle_shift_div_l.
  - change 0 with (inject_Z 0). rewrite <- Zlt_Qlt. lia.
  - rewrite Qmult_0_l. change 0 with (inject_Z 0). rewrite <- Zle_Qle. exact H.
Qed.

Lemma ratio_of_sum (l : list FolderInfo) (total : Z) :
  (0 < total)%Z ->
  ratios total l ==
  inject_Z (sum (map total_size l)) / inject_Z total.
Proof.
  intros Ht.
  assert (Hne : ~ inject_Z total == 0).
  { change 0 with (inject_Z 0). rewrite inject_Z_injective. lia. }
  induction l as [|c l IH].
  - unfold ratios, sum. simpl. field. exact Hne.
  - change (ratios total (c :: l)) with (ratio_of c total + ratios total l).
    cbn [map]. rewrite IH, sum_cons, inject_Z_plus.
    unfold ratio_of.
    destruct (Z.gtb_spec total 0) as [_|Hle]; [|lia].
    field. exact Hne.
Qed.

Lemma ratio_of_sum_le_1 (l : list FolderInfo) (total : Z) :
  Forall (fun c => (0 <= total_size c)%Z) l ->
  (sum (map total_size l) <= total)%Z ->
  ratios total l <= 1.
Proof.
  intros Hnn Hsum.
  destruct (Z.gtb_spec total 0) as [Ht|Ht].
  - rewrite ratio_of_sum by lia.
    apply Qle_shift_div_r.
    + change 0 with (inject_Z 0). rewrite <- Zlt_Qlt. lia.
    + rewrite Qmult_1_l. rewrite <- Zle_Qle. exact Hsum.
  - clear Hnn Hsum. induction l as [|c l IH].
    + unfold ratios. simpl. lra.
    + change (ratios total (c :: l)) with (ratio_of c total + ratios total l).
      unfold ratio_of at 1.
      destruct (Z.gtb_spec total 0) as [Hgt|_]; [lia|]. lra.
Qed.

Lemma Qsum_nonneg (l : list Q) : Forall (fun q => 0 <= q) l -> 0 <= Qsum l.
Proof.
  induction 1 as [|q l Hq _ IH]; simpl.
  - lra.
  - fold (Qsum l). lra.
Qed.

Section Places.
Variables (uh : bool) (width height : Q) (total : Z).
Hypothesis width_nonneg : 0 <= width.
Hypothesis height_nonneg : 0 <= height.

Lemma ratios_cons (c : FolderInfo) (l : list FolderInfo) :
  ratios total (c :: l) = ratio_of c total + ratios total l.
Proof. reflexivity. Qed.

Lemma ratios_nonneg (l : list FolderInfo) :
  Forall (fun c => 0 <= ratio_of c total) l -> 0 <= ratios total l.
Proof. intros H. apply Qsum_nonneg, Forall_map. exact H. Qed.

(** Every placed rectangle keeps the cross axis of the bounds, starts at
    or after the cursor and ends, spacing included, within the extent
    allotted to the whole list. *)
Lemma places_bounds (l : list FolderInfo) :
  Forall (fun c => 0 <= ratio_of c total) l ->
  forall cx cy P,
    In P (places uh width height total cx cy l) ->
    if uh then
      rect_y P = cy /\ rect_h P = height /\ cx <= rect_x P /\
      rect_x P + rect_w P + spacing <= cx + width * ratios total l
    else
      rect_x P = cx /\ rect_w P = width /\ cy <= rect_y P /\
      rect_y P + rect_h P + spacing <= cy + height * ratios total l.
Proof.
  induction 1 as [|c l Hc Hl IH]; intros cx cy P HP; [destruct HP|].
  pose proof (ratios_nonneg l Hl) as HS.
  assert (Hw : 0 <= width * ratios total l) by (apply Qmult_le_0_compat; assumption).
  assert (Hh : 0 <= height * ratios total l) by (apply Qmult_le_0_compat; assumption).
  assert (Hwc : 0 <= width * ratio_of c total)
    by (apply Qmult_le_0_compat; assumption).
  assert (Hhc : 0 <= height * ratio_of c total)
    by (apply Qmult_le_0_compat; assumption).
  rewrite ratios_cons.
  assert (Dw : width * (ratio_of c total + ratios total l) ==
               width * ratio_of c total + width * ratios total l) by ring.
  assert (Dh : height * (ratio_of c total + ratios total l) ==
               height * ratio_of c total + height * ratios total l) by ring.
  cbn [places] in HP. destruct HP as [<-|HP].
  - unfold item_width, item_height. destruct uh; cbn; repeat split; lra.
  - specialize (IH _ _ _ HP). unfold item_width, item_height in IH.
    destruct uh; destruct IH as (E1 & E2 & L1 & L2);
      repeat split; try assumption; lra.
Qed.

(** A rectangle placed later starts where an earlier one, spacing
    included, has ended, or further on. *)
Lemma places_ordered (l : list FolderInfo) :
  Forall (fun c => 0 <= ratio_of c total) l ->
  forall cx cy i j P R,
    (i < j)%nat ->
    nth_error (places uh width height total cx cy l) i = Some P ->
    nth_error (places uh width height total cx cy l) j = Some R ->
    if uh then rect_x P + rect_w P + spacing <= rect_x R
    else rect_y P + rect_h P + spacing <= rect_y R.
Proof.
  induction 1 as [|c l Hc Hl IH]; intros cx cy i j P R Hij HP HR.
  - destruct i; discriminate HP.
  - destruct j as [|j]; [lia|]. cbn [places nth_error] in HR.
    destruct i as [|i].
    + cbn [places nth_error] in HP. injection HP as <-.
      apply nth_error_In in HR.
      pose proof (places_bounds l Hl _ _ _ HR) as HB.
      unfold item_width, item_height in *.
      destruct uh; destruct HB as (_ & _ & L1 & _); cbn; lra.
    + cbn [places nth_error] in HP.
      eapply (IH _ _ i j); [lia | exact HP | exact HR].
Qed.

(** The running cursor: a rectangle starts at the cursor advanced by the
    extents of the rectangles placed before it. *)
Lemma places_cursor (l : list FolderInfo) :
  forall cx cy k P,
    nth_error (places uh width height total cx cy l) k = Some P ->
    if uh then
      rect_x P ==
      cx + Qsum (map (slice_extent true)
                     (firstn k (places uh width height total cx cy l)))
    else
      rect_y P ==
      cy + Qsum (map (slice_extent false)
                     (firstn k (places uh width height total cx cy l))).
Proof.
  induction l as [|c l IH]; intros cx cy k P HP.
  - destruct k; discriminate HP.
  - destruct k as [|k].
    + cbn [places nth_error] in HP. injection HP as <-.
      destruct uh; cbn; lra.
    + cbn [places nth_error] in HP. specialize (IH _ _ _ _ HP).
      destruct uh; rewrite IH; cbn [places firstn map Qsum fold_right];
        match goal with
        | |- context [fold_right Qplus 0 ?m] =>
            change (fold_right Qplus 0 m) with (Qsum m)
        end;
        cbn [slice_extent rect_w rect_h]; unfold item_width, item_height;
        ring.
Qed.

(** The extent of a rectangle along the slice axis, spacing included, is
    its item's share of the bounds. *)
Lemma places_share (l : list FolderInfo) :
  forall cx cy P,
    In P (places uh width height total cx cy l) ->
    slice_extent uh P ==
    (if uh then width else height) * ratio_of (folder_info P) total.
Proof.
  induction l as [|c l IH]; intros cx cy P HP; [destruct HP|].
  cbn [places] in HP. destruct HP as [<-|HP].
  - unfold slice_extent, item_width, item_height. destruct uh; cbn; lra.
  - apply (IH _ _ _ HP).
Qed.

Lemma places_folder_info (l : list FolderInfo) :
  forall cx cy, map folder_info (places uh width height total cx cy l) = l.
Proof.
  induction l as [|c l IH]; intros cx cy; [reflexivity|].
  cbn [places map folder_info]. rewrite IH. reflexivity.
Qed.
End Places.

(** C5: for children with non-negative total sizes that sum to at most
    [total], and bounds with a positive width and height, one call adds one
    rectangle per child, in sorted order; every visible rectangle lies
    within the bounds; no two rectangles overlap; and along the slice axis
    (x when [width >= height], y otherwise) each rectangle starts at the
    running cursor, that is the origin advanced by the extents of the
    rectangles before it, takes its item's share of the bounds less the
    spacing, and spans the full cross axis. *)
Theorem layout_rectangles (st : Store) (scene : Scene) (items : ref)
  (x y width height : Q) (total : Z) :
  Forall (fun c => (0 <= total_size c)%Z) (deref st items) ->
  (sum (map total_size (deref st items)) <= total)%Z ->
  0 < width -> 0 < height ->
  exists st' produced,
    _draw_treemap st scene items x y width height total =
      Some (st', scene ++ produced) /\
    map folder_info produced = sorted_list (deref st items) total_size true /\
    (forall P, In P produced -> visible P -> inside x y width height P) /\
    (forall i j P R, i <> j ->
        nth_error produced i = Some P -> nth_error produced j = Some R ->
        ~ overlap P R) /\
    (forall k P, nth_error produced k = Some P ->
        let uh := Qle_bool height width in
        slice_extent uh P ==
          (if uh then width else height) * ratio_of (folder_info P) total /\
        if uh then
          rect_y P == y /\ rect_h P == height /\
          rect_x P == x + Qsum (map (slice_extent true) (firstn k produced))
        else
          rect_x P == x /\ rect_w P == width /\
          rect_y P == y + Qsum (map (slice_extent false) (firstn k produced))).
Proof.
  intros Hnn Hsum Hw Hh.
  destruct (_draw_treemap_result st scene items x y width height total)
    as (st' & produced & E & _ & Hpos & _).
  specialize (Hpos Hw Hh).
  set (l := deref st items) in *.
  set (s := sorted_list l total_size true) in *.
  set (uh := Qle_bool height width) in *.
  assert (Hperm : Permutation s l) by apply sorted_list_perm.
  assert (Hnn' : Forall (fun c => (0 <= total_size c)%Z) s).
  { eapply Permutation_Forall; [apply Permutation_sym, Hperm | exact Hnn]. }
  assert (Hsum' : (sum (map total_size s) <= total)%Z).
  { rewrite (sum_perm _ _ (Permutation_map total_size Hperm)). exact Hsum. }
  assert (Hr : Forall (fun c => 0 <= ratio_of c total) s).
  { eapply Forall_impl; [|exact Hnn']. intros c. apply ratio_of_nonneg. }
  pose proof (ratio_of_sum_le_1 s total Hnn' Hsum') as H1.
  assert (HwR : width * ratios total s <= width).
  { rewrite <- (Qmult_1_r width) at 2. apply Qmult_le_l; assumption. }
  assert (HhR : height * ratios total s <= height).
  { rewrite <- (Qmult_1_r height) at 2. apply Qmult_le_l; assumption. }
  assert (Hw0 : 0 <= width) by lra.
  assert (Hh0 : 0 <= height) by lra.
  assert (Hsp : spacing == 5) by reflexivity.
  exists st', produced. subst produced.
  split; [exact E|]. split; [apply places_folder_info|].
  split; [|split].
  - intros P HP [Vw Vh].
    pose proof (places_bounds uh width height total Hw0 Hh0 s Hr x y P HP) as HB.
    unfold inside.
    destruct uh; destruct HB as (E1 & E2 & L1 & L2); rewrite ?E1, ?E2 in *;
      repeat split; lra.
  - intros i j P Q0 Hij HP HQ (VP & VQ & X1 & X2 & Y1 & Y2).
    assert (Hlt : (i < j)%nat \/ (j < i)%nat) by lia.
    destruct Hlt as [Hlt|Hlt].
    + pose proof (places_ordered uh width height total Hw0 Hh0 s Hr
                    x y i j P Q0 Hlt HP HQ) as HO.
      destruct uh; lra.
    + pose proof (places_ordered uh width height total Hw0 Hh0 s Hr
                    x y j i Q0 P Hlt HQ HP) as HO.
      destruct uh; lra.
  - intros k P HP. cbv zeta. split.
    + apply (places_share uh width height total s x y).
      apply nth_error_In with (1 := HP).
    + pose proof (places_cursor uh width height total s x y k P HP) as HC.
      pose proof (places_bounds uh width height total Hw0 Hh0 s Hr x y P
                    (nth_error_In _ _ HP)) as HB.
      destruct uh; destruct HB as (E1 & E2 & _ & _); rewrite E1, E2;
        repeat split; try reflexivity; exact HC.
Qed.

Lemma layout_rectangles_witness :
  exists st' produced,
    _draw_treemap [[child_b; child_a]] [] 0%nat 20 20 100 10 4 =
      Some (st', [] ++ produced) /\
    map folder_info produced = [child_a; child_b] /\
    (forall P, In P produced -> visible P -> inside 20 20 100 10 P) /\
    (forall i j P R, i <> j ->
        nth_error produced i = Some P -> nth_error produced j = Some R ->
        ~ overlap P R) /\
    (forall k P, nth_error produced k = Some P ->
        let uh := Qle_bool 10 100 in
        slice_extent uh P ==
          (if uh then 100 else 10) * ratio_of (folder_info P) 4 /\
        if uh then
          rect_y P == 20 /\ rect_h P == 10 /\
          rect_x P == 20 + Qsum (map (slice_extent true) (firstn k produced))
        else
          rect_x P == 20 /\ rect_w P == 100 /\
          rect_y P == 20 + Qsum (map (slice_extent false) (firstn k produced))).
Proof.
  apply (layout_rectangles [[child_b; child_a]] [] 0%nat 20 20 100 10 4).
  - repeat constructor; vm_compute; discriminate.
  - vm_compute. discriminate.
  - reflexivity.
  - reflexivity.
Defined.

(** C7: the layout sequence is the children sorted by total size,
    descending and stable: it is a permutation of the children, no later
    element is larger than an earlier one, and the children of any one total
    size appear in it in their original order.  The call leaves every list
    object that existed before it, the children's own among them, as it
    was. *)
Theorem layout_order_stable (st : Store) (scene : Scene) (items : ref)
  (x y width height : Q) (total : Z) :
  exists st' produced,
    _draw_treemap st scene items x y width height total =
      Some (st', scene ++ produced) /\
    (0 < width -> 0 < height ->
     map folder_info produced = sorted_list (deref st items) total_size true) /\
    Permutation (sorted_list (deref st items) total_size true) (deref st items) /\
    StronglySorted (fun a b => (total_size b <= total_size a)%Z)
                   (sorted_list (deref st items) total_size true) /\
    (forall k : Z,
        filter (fun c => (total_size c =? k)%Z)
               (sorted_list (deref st items) total_size true) =
        filter (fun c => (total_size c =? k)%Z) (deref st items)) /\
    deref st' items = deref st items /\
    (forall r, (r < List.length st)%nat -> deref st' r = deref st r).
Proof.
  destruct (_draw_treemap_result st scene items x y width height total)
    as (st' & produced & E & Hold & Hpos & Hdeg).
  exists st', produced.
  split; [exact E|]. split.
  { intros Hw Hh. rewrite (Hpos Hw Hh). apply places_folder_info. }
  split; [apply sorted_list_perm|]. split.
  { eapply StronglySorted_weaken; [|apply sorted_list_strongly].
    intros a b H. unfold in_order in H. apply Z.leb_le. exact H. }
  split; [intros k; apply sorted_list_stable|].
  split; [|exact Hold].
  destruct (Nat.lt_ge_cases items (List.length st)) as [Hlt|Hge].
  - apply Hold. exact Hlt.
  - assert (Hnil : deref st items = []).
    { unfold deref. apply nth_overflow. exact Hge. }
    destruct (Hdeg (or_introl Hnil)) as [_ ->]. reflexivity.
Qed.

Lemma layout_order_stable_witness :
  exists produced,
    map folder_info produced = [child_a; child_b] /\
    _draw_treemap [[child_b; child_a]] [] 0%nat 20 20 100 10 4 =
      Some ([[child_b; child_a]; [child_a; child_b]], produced).
Proof.
  destruct (layout_order_stable [[child_b; child_a]] [] 0%nat 20 20 100 10 4)
    as (st' & produced & E & Hmap & _).
  exists produced. split.
  - apply Hmap; reflexivity.
  - vm_compute in E. injection E as <- <-. vm_compute. reflexivity.
Defined.

Lemma places_label (uh : bool) (width height : Q) (total : Z)
  (l : list FolderInfo) :
  forall cx cy P,
    In P (places uh width height total cx cy l) ->
    rect_w P = (if uh then item_width uh width total (folder_info P) - spacing
                else item_width uh width total (folder_info P)) /\
    rect_h P = (if uh then item_height uh height total (folder_info P)
                else item_height uh height total (folder_info P) - spacing) /\
    label P = add_label (folder_info P) (rect_x P) (rect_y P)
                (item_width uh width total (folder_info P))
                (item_height uh height total (folder_info P)).
Proof.
  induction l as [|c l IH]; intros cx cy P HP; [destruct HP|].
  cbn [places] in HP. destruct HP as [<-|HP].
  - repeat split.
  - apply (IH _ _ _ HP).
Qed.

Lemma Qgtb_gt (a b : Q) : Qgtb a b = true <-> b < a.
Proof. unfold Qgtb. apply Qltb_lt. Qed.


(** C6: two children of total size 3 and 1, in either order, laid out in
    bounds of width 100 and height 10 with total 4: the slices run along x;
    the child of size 3 comes first with width 75 less the spacing, the
    other follows at 75 with width 25 less the spacing; both have the full
    height 10 and they do not overlap. *)
Theorem layout_three_one (st : Store) (scene : Scene) (items : ref)
  (x y : Q) (a b : FolderInfo) :
  total_size a = 3%Z -> total_size b = 1%Z ->
  deref st items = [a; b] \/ deref st items = [b; a] ->
  Qle_bool 10 100 = true /\
  exists st' Pa Pb,
    _draw_treemap st scene items x y 100 10 4 = Some (st', scene ++ [Pa; Pb]) /\
    folder_info Pa = a /\ folder_info Pb = b /\
    rect_w Pa == 75 - spacing /\ rect_w Pb == 25 - spacing /\
    rect_h Pa == 10 /\ rect_h Pb == 10 /\
    rect_x Pa == x /\ rect_x Pb == x + 75 /\
    rect_y Pa == y /\ rect_y Pb == y /\
    ~ overlap Pa Pb.
Proof.
  intros Ha Hb Hl. split; [reflexivity|].
  destruct (_draw_treemap_result st scene items x y 100 10 4)
    as (st' & produced & E & _ & Hpos & _).
  specialize (Hpos eq_refl eq_refl).
  assert (Hs : sorted_list (deref st items) total_size true = [a; b]).
  { destruct Hl as [-> | ->]; cbn [sorted_list fold_right insert_sorted];
      rewrite Ha, Hb; reflexivity. }
  rewrite Hs in Hpos. change (Qle_bool 10 100) with true in Hpos.
  cbn [places] in Hpos. unfold item_width, item_height, ratio_of in Hpos.
  rewrite Ha, Hb in Hpos. cbn [Z.gtb Z.compare Pos.compare Pos.compare_cont] in Hpos.
  subst produced.
  eexists st', _, _. split; [exact E|].
  cbn [folder_info rect_w rect_h rect_x rect_y].
  assert (Hsp : spacing == 5) by reflexivity.
  assert (E34 : 100 * (inject_Z 3 / inject_Z 4) == 75) by reflexivity.
  assert (E14 : 100 * (inject_Z 1 / inject_Z 4) == 25) by reflexivity.
  repeat split; try reflexivity; try lra.
  intros (_ & _ & X1 & X2 & _). cbn [rect_w rect_x] in X1, X2. lra.
Qed.

Lemma layout_three_one_witness :
  exists st' Pa Pb,
    _draw_treemap [[child_b; child_a]] [] 0%nat 20 20 100 10 4 =
      Some (st', [] ++ [Pa; Pb]) /\
    folder_info Pa = child_a /\ folder_info Pb = child_b /\
    rect_w Pa == 75 - spacing /\ rect_w Pb == 25 - spacing /\
    rect_h Pa == 10 /\ rect_h Pb == 10 /\
    rect_x Pa == 20 /\ rect_x Pb == 20 + 75 /\
    rect_y Pa == 20 /\ rect_y Pb == 20 /\
    ~ overlap Pa Pb.
Proof.
  apply (layout_three_one [[child_b; child_a]] [] 0%nat 20 20 child_a child_b).
  - reflexivity.
  - reflexivity.
  - right. reflexivity.
Defined.

(** The same call, evaluated: both rectangles are too low for a label. *)
Example layout_three_one_scene :
  option_map snd (_draw_treemap [[child_a; child_b]] [] 0%nat 20 20 100 10 4) =
  Some [ {| rect_x := 20; rect_y := 20;
            rect_w := 100 * (inject_Z 3 / inject_Z 4) - spacing; rect_h := 10;
            folder_info := child_a; label := None |};
         {| rect_x := 20 + 100 * (inject_Z 3 / inject_Z 4); rect_y := 20;
            rect_w := 100 * (inject_Z 1 / inject_Z 4) - spacing; rect_h := 10;
            folder_info := child_b; label := None |} ].
Proof. reflexivity. Qed.



(** The labels of that call: the wide rectangle has one, the narrow one
    has none. *)
Example label_threshold_scene :
  option_map (fun r => map label (snd r))
    (_draw_treemap [[child_a; child_b]] [] 0%nat 20 20 100 40 4) =
  Some [ Some {| text := ("videos" ++ newline ++ "3.0 B")%string;
                 pos_x := 20 + 5; pos_y := 20 + 5; point_size := 7;
                 text_width := 100 * (inject_Z 3 / inject_Z 4) - 10 |};
         None ].
Proof. reflexivity. Qed.

Example Path_name_examples :
  Path_name "/data/videos" = "videos" /\
  Path_name "/data/videos/" = "videos" /\
  Path_name "/" = "" /\
  Path_name "notes.txt" = "notes.txt" /\
  substring 0 15 (Path_name "/data/a_very_long_directory_name") =
    "a_very_long_dir".
Proof. repeat split. Qed.

(* ================================================================== *)
(** * Further properties *)

Local Close Scope Q_scope.

(* ------------------------------------------------------------------ *)
(** *** The scanner: shape of the tree *)

(** What the loop appends: a leaf for a file, or the scan of a
    sub-directory, each at the path of its entry. *)
Lemma scan_items_appends (path : string) (es : list (string * Node)) :
  forall self acc self' cs,
    scan_items self path es acc = (self', Some cs) ->
    exists new,
      cs = acc ++ new /\
      Forall (fun c =>
                (exists name sz,
                    c = mkFolderInfo (joinpath path name) (Z.of_N sz) []) \/
                (exists name item self0,
                    In (name, item) es /\
                    c = snd (_scan_folder self0 (joinpath path name) item)))
             new.
Proof.
  induction es as [|[nm item] es IH]; intros self acc self' cs E.
  - simpl in E. injection E as _ <-. exists []. rewrite app_nil_r.
    split; [reflexivity | constructor].
  - rewrite scan_items_cons in E.
    assert (W : forall new,
               Forall (fun c =>
                 (exists name sz,
                     c = mkFolderInfo (joinpath path name) (Z.of_N sz) []) \/
                 (exists name item self0,
                     In (name, item) es /\
                     c = snd (_scan_folder self0 (joinpath path name) item)))
                 new ->
               Forall (fun c =>
                 (exists name sz,
                     c = mkFolderInfo (joinpath path name) (Z.of_N sz) []) \/
                 (exists name item0 self0,
                     In (name, item0) ((nm, item) :: es) /\
                     c = snd (_scan_folder self0 (joinpath path name) item0)))
                 new).
    { intros new. apply Forall_impl. intros c [H|(n & i & s0 & Hin & Hc)].
      - left. exact H.
      - right. exists n, i, s0. split; [right; exact Hin | exact Hc]. }
    destruct item as [[sz|] | l | | ]; try discriminate.
    + destruct (IH _ _ _ _ E) as (new & -> & Hnew).
      exists (mkFolderInfo (joinpath path nm) (Z.of_N sz) [] :: new).
      rewrite <- app_assoc. split; [reflexivity|].
      constructor; [left; eauto | apply W, Hnew].
    + destruct (IH _ _ _ _ E) as (new & -> & Hnew).
      exists new. split; [reflexivity | apply W, Hnew].
    + destruct (IH _ _ _ _ E) as (new & -> & Hnew).
      exists (snd (_scan_folder self (joinpath path nm) (Directory l)) :: new).
      rewrite <- app_assoc. split; [reflexivity|].
      constructor; [|apply W, Hnew].
      right. exists nm, (Directory l), self. split; [left|]; reflexivity.
    + destruct (IH _ _ _ _ E) as (new & -> & Hnew).
      exists new. split; [reflexivity | apply W, Hnew].
Qed.

(** The result of [_scan_folder] is a node for [path] with own size 0. *)
Lemma _scan_folder_root (self : DiskScanner) (path : string) (p : Node) :
  exists cs, snd (_scan_folder self path p) = mkFolderInfo path 0 cs.
Proof.
  rewrite _scan_folder_eq.
  destruct (read_cancelled self) as [[|] self0]; [eexists; reflexivity|].
  destruct (iterdir p) as [es|]; [|eexists; reflexivity].
  destruct (scan_items self0 path es []) as [s' [cs|]]; eexists; reflexivity.
Qed.

(** An invariant of the scanned tree follows from two cases: the leaf of
    a file, and a node of own size 0 over children that have the invariant
    and sit one name below it. *)
Lemma _scan_folder_invariant (P : FolderInfo -> Prop) :
  (forall pth sz, P (mkFolderInfo pth (Z.of_N sz) [])) ->
  (forall pth cs,
      Forall P cs ->
      Forall (fun c => exists name, path c = joinpath pth name) cs ->
      P (mkFolderInfo pth 0 cs)) ->
  forall p self pth, P (snd (_scan_folder self pth p)).
Proof.
  intros Hleaf Hnode.
  assert (Hnil : forall pth, P (mkFolderInfo pth 0 [])).
  { intros pth. apply Hnode; constructor. }
  induction p as [st | | es IH | | ] using Node_ind'; intros self pth;
    rewrite _scan_folder_eq;
    destruct (read_cancelled self) as [[|] self0]; simpl; try apply Hnil.
  destruct (scan_items self0 pth es []) as [s' [cs|]] eqn:E; simpl;
    [|apply Hnil].
  destruct (scan_items_appends _ _ _ _ _ _ E) as (new & -> & Hnew).
  simpl. rewrite Forall_forall in IH, Hnew.
  apply Hnode; apply Forall_forall; intros c Hc;
    destruct (Hnew c Hc) as [(nm & sz & ->)|(nm & item & s0 & Hin & ->)].
  - apply Hleaf.
  - apply (IH (nm, item) Hin).
  - exists nm. reflexivity.
  - exists nm.
    destruct (_scan_folder_root s0 (joinpath pth nm) item) as (cs' & ->).
    reflexivity.
Qed.

(** X1: in every tree the scanner returns, whenever it is stopped or not,
    the root has own size 0, no own size is negative, and a node with
    children has own size 0: only leaves carry bytes. *)
Theorem scanned_tree_files_are_leaves (self : DiskScanner) (pth : string)
  (p : Node) :
  size (snd (_scan_folder self pth p)) = 0 /\
  Nonneg (snd (_scan_folder self pth p)) /\
  FilesAreLeaves (snd (_scan_folder self pth p)).
Proof.
  split; [|split].
  - destruct (_scan_folder_root self pth p) as (cs & ->). reflexivity.
  - apply _scan_folder_nonneg.
  - revert p self pth. apply _scan_folder_invariant.
    + intros q sz. constructor; [right; reflexivity | constructor].
    + intros q cs Hcs _. constructor; [left; reflexivity | exact Hcs].
Qed.

Lemma scan_items_below (path : string) (p : Node)
  (es : list (string * Node)) :
  (forall e, In e es -> In e (entries p)) ->
  Forall (fun e => forall self pth,
              Below pth (snd e) (snd (_scan_folder self pth (snd e)))) es ->
  forall self acc self' cs,
    Forall (fun c => exists name item,
                In (name, item) (entries p) /\
                Below (joinpath path name) item c) acc ->
    scan_items self path es acc = (self', Some cs) ->
    Forall (fun c => exists name item,
                In (name, item) (entries p) /\
                Below (joinpath path name) item c) cs.
Proof.
  intros Hsub H. revert Hsub.
  induction H as [|[nm item] es Hitem _ IH]; intros Hsub self acc self' cs Hacc E.
  - simpl in E. injection E as _ <-. exact Hacc.
  - assert (Hin : In (nm, item) (entries p)) by (apply Hsub; left; reflexivity).
    assert (Hsub' : forall e, In e es -> In e (entries p))
      by (intros e He; apply Hsub; right; exact He).
    rewrite scan_items_cons in E.
    destruct item as [[sz|] | l | | ]; try discriminate;
      try (eapply (IH Hsub'); [|exact E]; try exact Hacc).
    + apply Forall_app. split; [exact Hacc|].
      constructor; [|constructor].
      exists nm, (RegularFile (Some sz)). split; [exact Hin|].
      constructor. constructor.
    + apply Forall_app. split; [exact Hacc|].
      constructor; [|constructor].
      exists nm, (Directory l). split; [exact Hin|]. apply Hitem.
Qed.

Lemma _scan_folder_below (p : Node) :
  forall self pth, Below pth p (snd (_scan_folder self pth p)).
Proof.
  induction p as [st | | es IH | | ] using Node_ind'; intros self pth;
    rewrite _scan_folder_eq;
    destruct (read_cancelled self) as [[|] self0]; simpl;
    try (constructor; constructor).
  destruct (scan_items self0 pth es []) as [s' [cs|]] eqn:E; simpl;
    [|constructor; constructor].
  constructor.
  eapply (scan_items_below pth (Directory (Some es)) es);
    [ intros e He; exact He | exact IH | constructor | exact E ].
Qed.

(** X2: where the scanned tree lies.  The tree a scan returns carries at
    its root the path pathlib prints for the path that was given
    (separators collapsed, no trailing separator); every node below lies
    over one entry of its parent's listing, and its path is the path
    pathlib gives that entry's name under the parent's path: the name
    right after a root, after one separator otherwise. *)
Theorem scanned_tree_paths_nested (self : DiskScanner) (root_path : string)
  (p : Node) :
  (forall pth, Below pth p (snd (_scan_folder self pth p))) /\
  (forall self' info,
      scan self root_path (Some p) = (self', Some info) ->
      path info = str_Path root_path /\ Below (str_Path root_path) p info) /\
  (forall name, joinpath "/" name = ("/" ++ name)%string) /\
  (forall name, joinpath "." name = name).
Proof.
  split; [|split; [|split]].
  - intros pth. apply _scan_folder_below.
  - intros self' info E. unfold scan in E.
    destruct (exists_ (Some p)) as [[|]|]; try discriminate E.
    pose proof (_scan_folder_below p self (str_Path root_path)) as HB.
    destruct (_scan_folder self (str_Path root_path) p) as [s1 t].
    injection E as _ <-. simpl in HB. split; [|exact HB].
    inversion HB; reflexivity.
  - reflexivity.
  - reflexivity.
Qed.

Lemma scanned_tree_paths_nested_witness :
  path (mkFolderInfo "//srv/data" 0 [mkFolderInfo "//srv/data/f" 1 []]) =
    "//srv/data" /\
  Below "//srv/data" (Directory (Some [("f", RegularFile (Some 1%N))]))
        (mkFolderInfo "//srv/data" 0 [mkFolderInfo "//srv/data/f" 1 []]).
Proof.
  exact (proj1 (proj2 (scanned_tree_paths_nested unstopped "//srv///data/./"
                         (Directory (Some [("f", RegularFile (Some 1%N))]))))
               unstopped
               (mkFolderInfo "//srv/data" 0 [mkFolderInfo "//srv/data/f" 1 []])
               eq_refl).
Defined.

Example scan_under_root :
  snd (scan unstopped "/"
         (Some (Directory (Some [("f", RegularFile (Some 1%N));
                                 ("d", Directory (Some
                                    [("g", RegularFile (Some 2%N))]))])))) =
  Some (mkFolderInfo "/" 0
          [mkFolderInfo "/f" 1 [];
           mkFolderInfo "/d" 0 [mkFolderInfo "/d/g" 2 []]]).
Proof. reflexivity. Qed.

Example str_Path_examples :
  str_Path "/r/" = "/r" /\ str_Path "a//b/./c/" = "a/b/c" /\
  str_Path "///r" = "/r" /\ str_Path "//r" = "//r" /\
  str_Path "" = "." /\ str_Path "./a" = "a" /\ str_Path "/" = "/" /\
  joinpath (str_Path ".") "f" = "f" /\ joinpath (str_Path "/") "f" = "/f".
Proof. repeat split. Qed.

(* ------------------------------------------------------------------ *)
(** *** The scanner: what the total counts *)

Lemma sum_app (l1 l2 : list Z) : sum (l1 ++ l2) = sum l1 + sum l2.
Proof.
  induction l1 as [|z l1 IH]; simpl.
  - reflexivity.
  - rewrite !sum_cons, IH. lia.
Qed.

Lemma visible_bytes_eq (p : Node) :
  visible_bytes p =
  match iterdir p with
  | Some es =>
      if existsb is_NoAccess es then 0
      else sum (map (fun e => entry_bytes (snd e)) es)
  | None => 0
  end.
Proof.
  destruct p as [st | [es|] | | ]; try reflexivity.
  cbn [visible_bytes iterdir]. fold is_NoAccess.
  replace (existsb (fun e : string * Node =>
                      match snd e with NoAccess => true | _ => false end) es)
    with (existsb is_NoAccess es) by reflexivity.
  destruct (existsb is_NoAccess es); [reflexivity|].
  f_equal. apply map_ext. intros [nm item]. reflexivity.
Qed.

Lemma scan_items_unstopped_bytes (path : string) (es : list (string * Node)) :
  Forall (fun e => forall pth,
              total_size (snd (_scan_folder unstopped pth (snd e))) =
              visible_bytes (snd e)) es ->
  forall acc,
    match snd (scan_items unstopped path es acc) with
    | Some cs =>
        existsb is_NoAccess es = false /\
        sum (map total_size cs) =
        sum (map total_size acc) + sum (map (fun e => entry_bytes (snd e)) es)
    | None => existsb is_NoAccess es = true
    end.
Proof.
  induction 1 as [|[nm item] es Hitem _ IH]; intros acc.
  - simpl. split; [reflexivity|]. unfold sum at 3. simpl. lia.
  - rewrite scan_items_cons. cbn [map existsb snd]. rewrite sum_cons.
    destruct item as [[sz|] | l | | ]; cbn [is_NoAccess snd orb entry_bytes].
    + specialize (IH (acc ++ [mkFolderInfo (joinpath path nm) (Z.of_N sz) []])).
      destruct (snd (scan_items unstopped path es _)) as [cs|]; [|exact IH].
      destruct IH as [E1 E2]. split; [exact E1|].
      rewrite E2, map_app, sum_app. cbn [map total_size].
      unfold sum at 2 3. simpl. lia.
    + specialize (IH acc).
      destruct (snd (scan_items unstopped path es acc)) as [cs|]; [|exact IH].
      destruct IH as [E1 E2]. split; [exact E1 | lia].
    + rewrite (proj1 (_scan_folder_truncated (Directory l) (joinpath path nm))).
      specialize (IH (acc ++ [snd (_scan_folder unstopped (joinpath path nm)
                                     (Directory l))])).
      destruct (snd (scan_items unstopped path es _)) as [cs|]; [|exact IH].
      destruct IH as [E1 E2]. split; [exact E1|].
      rewrite E2, map_app, sum_app. cbn [map].
      simpl in Hitem. rewrite Hitem.
      unfold sum at 2. simpl. lia.
    + specialize (IH acc).
      destruct (snd (scan_items unstopped path es acc)) as [cs|]; [|exact IH].
      destruct IH as [E1 E2]. split; [exact E1 | lia].
    + reflexivity.
Qed.

(** X3: the total size of a scan that is not stopped is the number of
    bytes in the regular files whose size can be read, counted through
    every directory that can be listed and whose entries can all be
    queried; a directory that cannot be listed, or with an entry that
    cannot be queried, counts as 0, and so does a root that is not a
    directory. *)
Theorem unstopped_scan_total (pth : string) (p : Node) :
  total_size (snd (_scan_folder unstopped pth p)) = visible_bytes p.
Proof.
  revert pth.
  induction p as [st | | es IH | | ] using Node_ind'; intros pth;
    rewrite _scan_folder_eq, read_unstopped, visible_bytes_eq;
    cbn [iterdir]; try reflexivity.
  pose proof (scan_items_unstopped_bytes pth es IH []) as H.
  destruct (scan_items unstopped pth es []) as [s' [cs|]]; simpl in H.
  - destruct H as [-> E].
    change (total_size (snd (s', mkFolderInfo pth 0 cs)))
      with (0 + sum (map total_size cs)).
    rewrite <- E. lia.
  - rewrite H. reflexivity.
Qed.

(* ------------------------------------------------------------------ *)
(** *** The scanner: stopping later never shows less *)

Lemma read_cancelled_no_later (s s' : DiskScanner) :
  stops_no_later s s' ->
  stops_no_later (snd (read_cancelled s)) (snd (read_cancelled s')) /\
  (fst (read_cancelled s') = true -> fst (read_cancelled s) = true) /\
  (fst (read_cancelled s) = true ->
   cancelled (snd (read_cancelled s)) = true).
Proof.
  unfold stops_no_later, read_cancelled.
  destruct s as [c k], s' as [c' k']; simpl.
  intros [H | (H1 & H2 & H3)].
  - subst c. simpl. repeat split; auto.
  - subst c c'. destruct k as [[|k]|], k' as [[|k']|]; simpl in *;
      repeat split; auto; try lia; try discriminate; try contradiction;
      right; repeat split; auto; lia.
Qed.

Lemma stops_no_later_cancelled (s s' : DiskScanner) :
  cancelled s = true -> stops_no_later s s'.
Proof. intros H. left. exact H. Qed.

Section NoLater.
Variable path : string.

Lemma scan_items_no_later (es : list (string * Node)) :
  Forall (fun e => forall pth s s',
              stops_no_later s s' ->
              stops_no_later (fst (_scan_folder s pth (snd e)))
                             (fst (_scan_folder s' pth (snd e))) /\
              Truncated (snd (_scan_folder s' pth (snd e)))
                        (snd (_scan_folder s pth (snd e)))) es ->
  forall s s' acc acc',
    stops_no_later s s' ->
    Forall2 Truncated acc' acc ->
    stops_no_later (fst (scan_items s path es acc))
                   (fst (scan_items s' path es acc')) /\
    match snd (scan_items s' path es acc'), snd (scan_items s path es acc) with
    | Some later, Some sooner => Forall2 Truncated later sooner
    | None, None => True
    | _, _ => False
    end.
Proof.
  induction 1 as [|[nm item] es Hitem _ IH]; intros s s' acc acc' Hs Hacc.
  - split; [exact Hs | exact Hacc].
  - rewrite !scan_items_cons.
    destruct item as [[sz|] | l | | ]; try (apply IH; assumption).
    + apply IH; [exact Hs|]. apply Forall2_app; [exact Hacc|].
      constructor; [apply Truncated_refl | constructor].
    + simpl in Hitem. destruct (Hitem (joinpath path nm) s s' Hs) as [Hs' HT].
      apply IH; [exact Hs'|]. apply Forall2_app; [exact Hacc|].
      constructor; [exact HT | constructor].
    + split; [exact Hs | exact I].
Qed.
End NoLater.

Lemma _scan_folder_no_later (p : Node) :
  forall pth s s',
    stops_no_later s s' ->
    stops_no_later (fst (_scan_folder s pth p)) (fst (_scan_folder s' pth p)) /\
    Truncated (snd (_scan_folder s' pth p)) (snd (_scan_folder s pth p)).
Proof.
  induction p as [st | | es IH | | ] using Node_ind'; intros pth s s' Hs;
    rewrite (_scan_folder_eq s), (_scan_folder_eq s');
    destruct (read_cancelled_no_later s s' Hs) as (Hs1 & Hflag & Hset);
    destruct (read_cancelled s) as [f s1]; destruct (read_cancelled s') as [f' s1'];
    simpl in Hs1, Hflag, Hset;
    try (destruct f, f'; simpl; (split; [exact Hs1 | apply Truncated_refl])).
  destruct f'.
  - rewrite (Hflag eq_refl). simpl. split; [exact Hs1 | apply Truncated_refl].
  - destruct f; simpl.
    + split.
      * apply stops_no_later_cancelled. apply Hset. reflexivity.
      * destruct (scan_items s1' pth es []) as [t [cs|]]; apply Truncated_cut.
    + destruct (scan_items_no_later pth es IH s1 s1' [] [] Hs1 (Forall2_nil _))
        as [Hs2 HT].
      destruct (scan_items s1' pth es []) as [t' [cs'|]];
        destruct (scan_items s1 pth es []) as [t [cs|]];
        simpl in *; try contradiction; split; try exact Hs2.
      * apply Truncated_keep. exact HT.
      * apply Truncated_refl.
Qed.

(** X4: stopping later never shows less.  For two scans of the same
    directory tree whose flag is set after [k] and after [k'] reads with
    [k <= k'], the tree of the first is the tree of the second with some
    more directories cut to childless nodes of size 0, and its total size
    is not larger. *)
Theorem later_stop_shows_more (pth : string) (p : Node) (k k' : nat) :
  (k <= k')%nat ->
  Truncated (snd (_scan_folder (DiskScanner_init (Some k')) pth p))
            (snd (_scan_folder (DiskScanner_init (Some k)) pth p)) /\
  total_size (snd (_scan_folder (DiskScanner_init (Some k)) pth p)) <=
  total_size (snd (_scan_folder (DiskScanner_init (Some k')) pth p)).
Proof.
  intros Hk.
  assert (HT : Truncated
                 (snd (_scan_folder (DiskScanner_init (Some k')) pth p))
                 (snd (_scan_folder (DiskScanner_init (Some k)) pth p))).
  { apply _scan_folder_no_later. right. simpl. auto. }
  split; [exact HT|].
  apply Truncated_total; [exact HT | apply _scan_folder_nonneg].
Qed.

Lemma later_stop_shows_more_witness :
  total_size (snd (_scan_folder (DiskScanner_init (Some 1%nat)) "/data"
                     example_tree)) <=
  total_size (snd (_scan_folder (DiskScanner_init (Some 3%nat)) "/data"
                     example_tree)).
Proof.
  apply (later_stop_shows_more "/data" example_tree 1 3). lia.
Defined.

Example later_stop_shows_more_values :
  map (fun k => total_size (snd (_scan_folder (DiskScanner_init (Some k))
                                   "/data" example_tree)))
      [0; 1; 2; 3; 4]%nat = [0; 100; 100; 107; 107].
Proof. reflexivity. Qed.

(* ------------------------------------------------------------------ *)
(** *** The utility functions: rounding at a unit boundary, percentages *)

Local Open Scope Q_scope.

Lemma Qltb_compat (x x' y y' : Q) :
  x == x' -> y == y' -> Qltb x y = Qltb x' y'.
Proof. intros Hx Hy. unfold Qltb. rewrite Hx, Hy. reflexivity. Qed.

Lemma round_half_even_compat (x y : Q) :
  x == y -> round_half_even x = round_half_even y.
Proof.
  intros H. unfold round_half_even.
  rewrite (Qfloor_comp x y H).
  rewrite (Qltb_compat (x - inject_Z (Qfloor y)) (y - inject_Z (Qfloor y))
             (1 # 2) (1 # 2)) by (rewrite ?H; reflexivity).
  rewrite (Qltb_compat (1 # 2) (1 # 2)
             (x - inject_Z (Qfloor y)) (y - inject_Z (Qfloor y)))
    by (rewrite ?H; reflexivity).
  reflexivity.
Qed.

(** The printed text depends on the number only, not on the fraction
    that stands for it. *)
Lemma format_1f_compat (x y : Q) : x == y -> format_1f x = format_1f y.
Proof.
  intros H. unfold format_1f.
  rewrite (Qltb_compat x y 0 0 H) by reflexivity.
  destruct (Qltb y 0).
  - rewrite (round_half_even_compat (- x * 10) (- y * 10))
      by (rewrite H; reflexivity).
    reflexivity.
  - rewrite (round_half_even_compat (x * 10) (y * 10))
      by (rewrite H; reflexivity).
    reflexivity.
Qed.

Lemma Qfloor_between (x : Q) (z : Z) :
  inject_Z z <= x -> x < inject_Z (z + 1) -> Qfloor x = z.
Proof.
  intros Hlo Hhi.
  pose proof (Qfloor_le x) as H1. pose proof (Qlt_floor x) as H2.
  assert (A : (z < Qfloor x + 1)%Z).
  { rewrite Zlt_Qlt. eapply Qle_lt_trans; eassumption. }
  assert (B : (Qfloor x < z + 1)%Z).
  { rewrite Zlt_Qlt. eapply Qle_lt_trans; eassumption. }
  lia.
Qed.

Lemma format_1f_just_below_1024 (v : Q) :
  (20479 # 20) <= v -> v < 1024 -> format_1f v = "1024.0"%string.
Proof.
  intros Hlo Hhi. unfold format_1f.
  assert (E0 : Qltb v 0 = false) by (apply Qltb_ge; lra).
  rewrite E0.
  assert (Et : round_half_even (v * 10) = 10240%Z).
  { unfold round_half_even.
    assert (Ef : Qfloor (v * 10) = 10239%Z).
    { apply Qfloor_between.
      - change (inject_Z 10239) with (10239 # 1). lra.
      - change (inject_Z (10239 + 1)) with (10240 # 1). lra. }
    rewrite Ef.
    assert (E1 : Qltb (v * 10 - inject_Z 10239) (1 # 2) = false).
    { apply Qltb_ge. change (inject_Z 10239) with (10239 # 1). lra. }
    rewrite E1.
    destruct (Qltb (1 # 2) (v * 10 - inject_Z 10239)); reflexivity. }
  rewrite Et. reflexivity.
Qed.

Lemma shrink_ge_Q (j : nat) :
  forall q c : Q,
    c * inject_Z (1024 ^ Z.of_nat j) <= q -> c <= shrink j q.
Proof.
  induction j as [|j IH]; intros q c H.
  - simpl in *. rewrite Qmult_1_r in H. exact H.
  - cbn [shrink]. apply IH.
    apply Qle_shift_div_l; [reflexivity|].
    rewrite Nat2Z.inj_succ, Z.pow_succ_r in H by lia.
    rewrite inject_Z_mult in H.
    change (inject_Z 1024) with 1024 in H.
    rewrite <- Qmult_assoc, (Qmult_comm (inject_Z _) 1024). exact H.
Qed.

(** X5: rounding at a unit boundary.  A size within a twentieth of a unit
    below the next power of 1024 stays in the smaller unit and is printed
    as 1024.0 of it: KB up to TB never switch to the next unit on
    rounding. *)
Theorem format_size_rounds_up_to_1024 (k : nat) (n : Z) :
  (1 <= k <= 4)%nat ->
  (20479 * 1024 ^ Z.of_nat k <= 20 * n)%Z ->
  (n < 1024 ^ Z.of_nat (S k))%Z ->
  format_size n =
  ("1024.0 " ++ nth k ["B"; "KB"; "MB"; "GB"; "TB"] "PB")%string.
Proof.
  intros Hk Hlo Hhi.
  assert (HP : (0 < 1024 ^ Z.of_nat k)%Z) by (apply Z.pow_pos_nonneg; lia).
  unfold format_size.
  rewrite (format_size_loop_stops _ k).
  - rewrite format_1f_just_below_1024; [reflexivity | |].
    + apply shrink_ge_Q.
      assert (H : inject_Z (20479 * 1024 ^ Z.of_nat k) <= inject_Z (20 * n))
        by (rewrite <- Zle_Qle; exact Hlo).
      rewrite !inject_Z_mult in H.
      change (inject_Z 20479) with 20479 in H.
      change (inject_Z 20) with 20 in H. lra.
    + apply (shrink_lt k (inject_Z n) 1024). rewrite <- Zlt_Qlt.
      rewrite Nat2Z.inj_succ, Z.pow_succ_r in Hhi by lia. exact Hhi.
  - simpl. lia.
  - intros j Hj.
    apply (shrink_ge j (inject_Z n) 1024). rewrite <- Zle_Qle.
    apply Z.le_trans with (1024 ^ Z.of_nat k)%Z; [|lia].
    replace (1024 * 1024 ^ Z.of_nat j)%Z with (1024 ^ Z.of_nat (S j))%Z.
    + apply Z.pow_le_mono_r; lia.
    + rewrite Nat2Z.inj_succ, Z.pow_succ_r by lia. reflexivity.
  - intros _.
    apply (shrink_lt k (inject_Z n) 1024). rewrite <- Zlt_Qlt.
    rewrite Nat2Z.inj_succ, Z.pow_succ_r in Hhi by lia. exact Hhi.
Qed.

Lemma format_size_rounds_up_to_1024_witness :
  format_size 1048575 = "1024.0 KB"%string.
Proof.
  apply (format_size_rounds_up_to_1024 1 1048575).
  - lia.
  - vm_compute. discriminate.
  - reflexivity.
Defined.

Lemma mapM_total {A B : Type} (f : A -> option B) (g : A -> B) (l : list A) :
  (forall x, In x l -> f x = Some (g x)) -> mapM f l = Some (map g l).
Proof.
  induction l as [|x l IH]; intros H; [reflexivity|].
  cbn [mapM map]. rewrite (H x (or_introl eq_refl)).
  fold (mapM f l). rewrite IH; [reflexivity|].
  intros y Hy. apply H. right. exact Hy.
Qed.

Lemma calculate_percentage_positive (size total : Z) :
  (0 < total)%Z ->
  calculate_percentage size total =
  Some (inject_Z size / inject_Z total * 100).
Proof.
  intros H. unfold calculate_percentage, truediv.
  destruct (Z.gtb_spec total 0) as [_|Hle]; [|lia].
  assert (E : (total =? 0)%Z = false) by (apply Z.eqb_neq; lia).
  rewrite E. reflexivity.
Qed.

Lemma calculate_percentage_bounds (size total : Z) :
  (0 <= size <= total)%Z ->
  exists q, calculate_percentage size total = Some q /\ 0 <= q <= 100.
Proof.
  intros [H0 H1]. destruct (Z.gtb_spec total 0) as [Hpos|Hle].
  - rewrite calculate_percentage_positive by lia.
    eexists. split; [reflexivity|].
    assert (HTq : 0 < inject_Z total).
    { change 0 with (inject_Z 0). rewrite <- Zlt_Qlt. lia. }
    assert (Hs0 : 0 <= inject_Z size).
    { change 0 with (inject_Z 0). rewrite <- Zle_Qle. exact H0. }
    assert (Hs1 : inject_Z size <= inject_Z total)
      by (rewrite <- Zle_Qle; exact H1).
    assert (Hr0 : 0 <= inject_Z size / inject_Z total).
    { apply Qle_shift_div_l; [exact HTq | lra]. }
    assert (Hr1 : inject_Z size / inject_Z total <= 1).
    { apply Qle_shift_div_r; [exact HTq | lra]. }
    lra.
  - exists 0. split; [|lra].
    unfold calculate_percentage.
    destruct (Z.gtb_spec total 0) as [Hpos|_]; [lia | reflexivity].
Qed.

Lemma calculate_percentage_monotone (a b total : Z) (pa pb : Q) :
  (a <= b)%Z ->
  calculate_percentage a total = Some pa ->
  calculate_percentage b total = Some pb ->
  pa <= pb.
Proof.
  intros Hab Ea Eb. destruct (Z.gtb_spec total 0) as [Hpos|Hle].
  - rewrite calculate_percentage_positive in Ea, Eb by lia.
    injection Ea as <-. injection Eb as <-.
    assert (HTq : 0 < inject_Z total).
    { change 0 with (inject_Z 0). rewrite <- Zlt_Qlt. lia. }
    assert (Hq : inject_Z a <= inject_Z b) by (rewrite <- Zle_Qle; exact Hab).
    assert (Hd : inject_Z a / inject_Z total <= inject_Z b / inject_Z total).
    { unfold Qdiv. apply Qmult_le_compat_r; [exact Hq|].
      apply Qlt_le_weak, Qinv_lt_0_compat. exact HTq. }
    lra.
  - unfold calculate_percentage in Ea, Eb.
    destruct (Z.gtb_spec total 0) as [Hpos|_]; [lia|].
    injection Ea as <-. injection Eb as <-. lra.
Qed.

Lemma child_total_le (f c : FolderInfo) :
  (0 <= size f)%Z ->
  Forall (fun c => (0 <= total_size c)%Z) (children f) ->
  In c (children f) -> (total_size c <= total_size f)%Z.
Proof.
  destruct f as [p s cs]. cbn [size children]. intros Hs Hnn Hc.
  assert (HT : total_size (mkFolderInfo p s cs) =
               (s + sum (map total_size cs))%Z) by (simpl; lia).
  rewrite HT. clear HT.
  induction cs as [|d cs IH]; [destruct Hc|].
  cbn [map]. rewrite sum_cons.
  assert (0 <= sum (map total_size cs))%Z.
  { apply sum_nonneg, Forall_map. inversion Hnn; assumption. }
  inversion Hnn as [|? ? Hd Hrest]; subst.
  destruct Hc as [->|Hc].
  - lia.
  - specialize (IH Hrest Hc). lia.
Qed.

(** X6: the percentages of the children of a node, each taken against the
    node's total as the table and the tree view take them.  When neither
    the node's own size nor any child's total is negative, as in every
    scanned tree, no percentage raises, also when the total is 0, and
    there is one per child, each between 0 and 100.  A child that is no
    larger than another never gets the larger percentage. *)
Theorem children_percentages (f : FolderInfo) :
  (0 <= size f)%Z ->
  Forall (fun c => (0 <= total_size c)%Z) (children f) ->
  exists ps,
    mapM (fun c => calculate_percentage (total_size c) (total_size f))
         (children f) = Some ps /\
    List.length ps = List.length (children f) /\
    Forall (fun q => 0 <= q <= 100) ps /\
    (forall c d pc pd,
        (total_size c <= total_size d)%Z ->
        calculate_percentage (total_size c) (total_size f) = Some pc ->
        calculate_percentage (total_size d) (total_size f) = Some pd ->
        pc <= pd).
Proof.
  intros Hs Hnn.
  assert (G : forall l, (forall c, In c l -> In c (children f)) ->
              exists ps,
                mapM (fun c => calculate_percentage (total_size c)
                                                    (total_size f)) l =
                  Some ps /\
                List.length ps = List.length l /\
                Forall (fun q => 0 <= q <= 100) ps).
  { induction l as [|c l IH]; intros Hsub.
    - exists []. repeat split. constructor.
    - destruct (IH (fun x Hx => Hsub x (or_intror Hx))) as (ps & E & Hl & Hb).
      destruct (calculate_percentage_bounds (total_size c) (total_size f))
        as (q & Eq & Hq).
      { split.
        - rewrite Forall_forall in Hnn. apply Hnn, Hsub. left. reflexivity.
        - apply child_total_le; [exact Hs | exact Hnn |].
          apply Hsub. left. reflexivity. }
      exists (q :: ps). split; [|split].
      + cbn [mapM]. rewrite Eq. fold (mapM (fun c => calculate_percentage
                                   (total_size c) (total_size f)) l).
        rewrite E. reflexivity.
      + simpl. rewrite Hl. reflexivity.
      + constructor; [exact Hq | exact Hb]. }
  destruct (G (children f) (fun c Hc => Hc)) as (ps & E & Hl & Hb).
  exists ps. split; [exact E|]. split; [exact Hl|]. split; [exact Hb|].
  intros c d pc pd Hcd Ec Ed.
  exact (calculate_percentage_monotone _ _ _ _ _ Hcd Ec Ed).
Qed.

Lemma children_percentages_witness :
  exists ps,
    mapM (fun c => calculate_percentage (total_size c) 6)
         [child_a; child_b] = Some ps /\
    List.length ps = 2%nat /\
    Forall (fun q => 0 <= q <= 100) ps.
Proof.
  destruct (children_percentages (mkFolderInfo "/data" 2 [child_a; child_b]))
    as (ps & E & Hl & Hb & _).
  - simpl. lia.
  - repeat constructor; vm_compute; discriminate.
  - exists ps. split; [exact E|]. split; [exact Hl | exact Hb].
Defined.

(* ------------------------------------------------------------------ *)
(** *** The treemap widget *)

(** The geometry of one level of rectangles, for the sorted children. *)
Lemma sorted_places_geometry (l : list FolderInfo) (x y width height : Q)
  (total : Z) :
  Forall (fun c => (0 <= total_size c)%Z) l ->
  (sum (map total_size l) <= total)%Z ->
  0 < width -> 0 < height ->
  let produced :=
    places (Qle_bool height width) width height total x y
           (sorted_list l total_size true) in
  (forall P, In P produced -> visible P -> inside x y width height P) /\
  (forall i j P R, i <> j ->
      nth_error produced i = Some P -> nth_error produced j = Some R ->
      ~ overlap P R).
Proof.
  intros Hnn Hsum Hw Hh produced. subst produced.
  set (s := sorted_list l total_size true).
  set (uh := Qle_bool height width).
  assert (Hperm : Permutation s l) by apply sorted_list_perm.
  assert (Hnn' : Forall (fun c => (0 <= total_size c)%Z) s).
  { eapply Permutation_Forall; [apply Permutation_sym, Hperm | exact Hnn]. }
  assert (Hsum' : (sum (map total_size s) <= total)%Z).
  { rewrite (sum_perm _ _ (Permutation_map total_size Hperm)). exact Hsum. }
  assert (Hr : Forall (fun c => 0 <= ratio_of c total) s).
  { eapply Forall_impl; [|exact Hnn']. intros c. apply ratio_of_nonneg. }
  pose proof (ratio_of_sum_le_1 s total Hnn' Hsum') as H1.
  assert (HwR : width * ratios total s <= width).
  { rewrite <- (Qmult_1_r width) at 2. apply Qmult_le_l; assumption. }
  assert (HhR : height * ratios total s <= height).
  { rewrite <- (Qmult_1_r height) at 2. apply Qmult_le_l; assumption. }
  assert (Hw0 : 0 <= width) by lra.
  assert (Hh0 : 0 <= height) by lra.
  assert (Hsp : spacing == 5) by reflexivity.
  split.
  - intros P HP [Vw Vh].
    pose proof (places_bounds uh width height total Hw0 Hh0 s Hr x y P HP) as HB.
    unfold inside.
    destruct uh; destruct HB as (E1 & E2 & L1 & L2); rewrite ?E1, ?E2 in *;
      repeat split; lra.
  - intros i j P R Hij HP HR (VP & VR & X1 & X2 & Y1 & Y2).
    assert (Hlt : (i < j)%nat \/ (j < i)%nat) by lia.
    destruct Hlt as [Hlt|Hlt].
    + pose proof (places_ordered uh width height total Hw0 Hh0 s Hr
                    x y i j P R Hlt HP HR) as HO.
      destruct uh; lra.
    + pose proof (places_ordered uh width height total Hw0 Hh0 s Hr
                    x y j i R P Hlt HR HP) as HO.
      destruct uh; lra.
Qed.

Lemma Nonneg_children (p : string) (s : Z) (cs : list FolderInfo) :
  Nonneg (mkFolderInfo p s cs) ->
  Forall (fun c => (0 <= total_size c)%Z) cs /\
  (sum (map total_size cs) <= total_size (mkFolderInfo p s cs))%Z.
Proof.
  intros H. inversion H as [p' s' cs' Hs Hcs]; subst. split.
  - eapply Forall_impl; [|exact Hcs]. intros c. apply Nonneg_total.
  - simpl. lia.
Qed.

(** Does [display_treemap] return before it draws? *)
Lemma display_treemap_result (self : TreemapWidget) (f : FolderInfo) :
  let vw := view_extent (widget_width self) in
  let vh := view_extent (widget_height self) in
  let nothing :=
    (total_size f =? 0)%Z || (vw <=? 0)%Z || (vh <=? 0)%Z in
  display_treemap self (Some f) =
  Some {| widget_scene :=
            if nothing then []
            else places (Qle_bool (inject_Z vh) (inject_Z vw))
                        (inject_Z vw) (inject_Z vh) (total_size f) 20 20
                        (sorted_list (children f) total_size true);
          widget_folder_info := Some f;
          widget_width := widget_width self;
          widget_height := widget_height self |}.
Proof.
  cbv zeta. unfold display_treemap, view_extent.
  cbn [widget_width widget_height widget_scene].
  replace (widget_width self - 4 - 20 * 2)%Z with (widget_width self - 44)%Z
    by lia.
  replace (widget_height self - 4 - 20 * 2)%Z with (widget_height self - 44)%Z
    by lia.
  destruct (total_size f =? 0)%Z; [reflexivity|]. cbn [orb].
  destruct ((widget_width self - 44 <=? 0)%Z || (widget_height self - 44 <=? 0)%Z)
    eqn:Eb; [reflexivity|].
  apply orb_false_iff in Eb. destruct Eb as [Ew Eh].
  apply Z.leb_gt in Ew, Eh.
  assert (Hw : 0 < inject_Z (widget_width self - 44)).
  { change 0 with (inject_Z 0). rewrite <- Zlt_Qlt. exact Ew. }
  assert (Hh : 0 < inject_Z (widget_height self - 44)).
  { change 0 with (inject_Z 0). rewrite <- Zlt_Qlt. exact Eh. }
  destruct (_draw_treemap_result [children f] [] 0%nat (inject_Z 20) (inject_Z 20)
              (inject_Z (widget_width self - 44))
              (inject_Z (widget_height self - 44)) (total_size f))
    as (st' & produced & E & _ & Hpos & _).
  rewrite E. rewrite (Hpos Hw Hh). reflexivity.
Qed.

(** X7: [display_treemap] never raises and forgets the scene it had: the
    new scene holds one rectangle per child of the folder, largest first,
    or nothing at all when the folder's total size is 0 or the widget is
    at most 44 wide or high; the folder is remembered for later resizes
    and the widget keeps its size. *)
Theorem display_treemap_shows (self : TreemapWidget) (f : FolderInfo) :
  exists self',
    display_treemap self (Some f) = Some self' /\
    widget_folder_info self' = Some f /\
    widget_width self' = widget_width self /\
    widget_height self' = widget_height self /\
    map folder_info (widget_scene self') =
      (if (total_size f =? 0)%Z
          || (widget_width self <=? 44)%Z || (widget_height self <=? 44)%Z
       then [] else sorted_list (children f) total_size true).
Proof.
  eexists. split; [apply display_treemap_result|].
  cbn [widget_folder_info widget_width widget_height widget_scene].
  repeat split. unfold view_extent.
  replace (widget_width self - 44 <=? 0)%Z with (widget_width self <=? 44)%Z
    by (destruct (Z.leb_spec (widget_width self) 44);
        destruct (Z.leb_spec (widget_width self - 44) 0); lia || reflexivity).
  replace (widget_height self - 44 <=? 0)%Z with (widget_height self <=? 44)%Z
    by (destruct (Z.leb_spec (widget_height self) 44);
        destruct (Z.leb_spec (widget_height self - 44) 0); lia || reflexivity).
  destruct ((total_size f =? 0)%Z || (widget_width self <=? 44)%Z
            || (widget_height self <=? 44)%Z); [reflexivity|].
  apply places_folder_info.
Qed.

Lemma display_treemap_fits (self : TreemapWidget) (f : FolderInfo) :
  Nonneg f ->
  exists self', display_treemap self (Some f) = Some self' /\ scene_fits self'.
Proof.
  intros HN. eexists. split; [apply display_treemap_result|].
  unfold scene_fits. cbn [widget_folder_info widget_width widget_height widget_scene].
  split; [exact HN|].
  destruct ((total_size f =? 0)%Z || (view_extent (widget_width self) <=? 0)%Z
            || (view_extent (widget_height self) <=? 0)%Z) eqn:Eb.
  - split.
    + intros P [].
    + intros i j P R _ HP. destruct i; discriminate HP.
  - apply orb_false_iff in Eb. destruct Eb as [Eb Eh].
    apply orb_false_iff in Eb. destruct Eb as [_ Ew].
    apply Z.leb_gt in Ew, Eh.
    destruct f as [p s cs].
    destruct (Nonneg_children p s cs HN) as [Hnn Hsum].
    apply (sorted_places_geometry cs 20 20); try assumption.
    + change 0 with (inject_Z 0). rewrite <- Zlt_Qlt. exact Ew.
    + change 0 with (inject_Z 0). rewrite <- Zlt_Qlt. exact Eh.
Qed.

Lemma widget_step_fits (self : TreemapWidget) (ev : WidgetEvent) :
  scene_fits self -> event_ok ev ->
  exists self', widget_step self ev = Some self' /\ scene_fits self'.
Proof.
  intros Hfit Hev. destruct ev as [[f|] | w h]; cbn [widget_step].
  - apply display_treemap_fits. exact Hev.
  - eexists. split; [reflexivity|]. reflexivity.
  - unfold resizeEvent. cbn [widget_folder_info].
    unfold scene_fits in Hfit.
    destruct (widget_folder_info self) as [f|] eqn:Ef.
    + apply display_treemap_fits. apply Hfit.
    + eexists. split; [reflexivity|].
      unfold scene_fits. cbn [widget_folder_info widget_scene].
      exact Hfit.
Qed.

(** X8: whatever folders with non-negative sizes are displayed and however
    the widget is resized, in any order, no step raises, and afterwards
    the scene is drawn for the widget's present size: every visible
    rectangle lies inside the view left by the padding, and no two
    rectangles overlap. *)
Theorem widget_scene_always_fits (w0 h0 : Z) (evs : list WidgetEvent) :
  Forall event_ok evs ->
  exists self,
    widget_run (TreemapWidget_init w0 h0) evs = Some self /\ scene_fits self.
Proof.
  assert (G : forall evs self, scene_fits self -> Forall event_ok evs ->
                exists self', widget_run self evs = Some self' /\ scene_fits self').
  { clear. induction evs as [|ev evs IH]; intros self Hfit Hevs.
    - exists self. split; [reflexivity | exact Hfit].
    - inversion Hevs as [|? ? Hev Hevs']; subst.
      destruct (widget_step_fits self ev Hfit Hev) as (self1 & E1 & Hfit1).
      destruct (IH self1 Hfit1 Hevs') as (self2 & E2 & Hfit2).
      exists self2. split; [|exact Hfit2].
      cbn [widget_run]. rewrite E1. exact E2. }
  intros Hevs. apply G; [reflexivity | exact Hevs].
Qed.

Lemma widget_scene_always_fits_witness :
  exists self,
    widget_run (TreemapWidget_init 800 600)
      [Display (Some (mkFolderInfo "/data" 0 [child_a; child_b]));
       Resize 300 500; Display None; Resize 50 40;
       Display (Some child_a)] = Some self /\
    scene_fits self.
Proof.
  apply (widget_scene_always_fits 800 600).
  repeat constructor; simpl; lia.
Defined.

(* ------------------------------------------------------------------ *)
(** *** The tree view and the details table *)

Local Close Scope Q_scope.

Lemma mapM_cons {A B : Type} (g : A -> option B) (x : A) (l : list A) :
  mapM g (x :: l) =
  match g x with
  | Some y => match mapM g l with
              | Some ys => Some (y :: ys)
              | None => None
              end
  | None => None
  end.
Proof. reflexivity. Qed.

Lemma mapM_exists {A B : Type} (g : A -> option B) (Q : A -> B -> Prop)
  (l : list A) :
  Forall (fun x => exists y, g x = Some y /\ Q x y) l ->
  exists ys, mapM g l = Some ys /\ Forall2 Q l ys.
Proof.
  induction 1 as [|x l (y & Ey & Hy) _ (ys & Eys & Hys)].
  - exists []. split; [reflexivity | constructor].
  - exists (y :: ys). rewrite mapM_cons, Ey, Eys.
    split; [reflexivity | constructor; assumption].
Qed.

Section MapSorted.
Context {A B : Type} (g : A -> option B) (key : A -> Z) (key' : B -> Z)
        (reverse : bool).

Lemma mapM_insert_sorted (x : A) (l : list A) :
  (forall a b, In a (x :: l) -> g a = Some b -> key' b = key a) ->
  mapM g (insert_sorted key reverse x l) =
  match g x, mapM g l with
  | Some y, Some ys => Some (insert_sorted key' reverse y ys)
  | _, _ => None
  end.
Proof.
  induction l as [|a l IH]; intros Hk.
  - cbn [insert_sorted]. rewrite mapM_cons. cbn [mapM].
    destruct (g x); reflexivity.
  - cbn [insert_sorted].
    destruct (in_order reverse (key x) (key a)) eqn:E.
    + rewrite !mapM_cons.
      destruct (g x) as [y|] eqn:Ex; [|reflexivity].
      destruct (g a) as [b|] eqn:Ea; [|reflexivity].
      destruct (mapM g l) as [ys|]; [|reflexivity].
      cbn [insert_sorted].
      rewrite (Hk x y (or_introl eq_refl) Ex).
      rewrite (Hk a b (or_intror (or_introl eq_refl)) Ea), E. reflexivity.
    + rewrite !mapM_cons. rewrite IH.
      * destruct (g x) as [y|] eqn:Ex.
        -- destruct (g a) as [b|] eqn:Ea; [|reflexivity].
           destruct (mapM g l) as [ys|]; [|reflexivity].
           cbn [insert_sorted].
           rewrite (Hk x y (or_introl eq_refl) Ex).
           rewrite (Hk a b (or_intror (or_introl eq_refl)) Ea), E. reflexivity.
        -- destruct (g a); reflexivity.
      * intros a0 b0 [<-|Hin] H0; apply Hk; auto.
        -- left. reflexivity.
        -- right. right. exact Hin.
Qed.

(** Creating an element per child and sorting commute, when the sort key
    of what is created is the key of the child. *)
Lemma mapM_sorted_list (l : list A) :
  (forall a b, In a l -> g a = Some b -> key' b = key a) ->
  mapM g (sorted_list l key reverse) =
  match mapM g l with
  | Some ys => Some (sorted_list ys key' reverse)
  | None => None
  end.
Proof.
  induction l as [|x l IH]; intros Hk; [reflexivity|].
  cbn [sorted_list fold_right]. fold (sorted_list l key reverse).
  rewrite mapM_insert_sorted.
  - rewrite IH by (intros a b Ha; apply Hk; right; exact Ha).
    rewrite mapM_cons.
    destruct (g x) as [y|]; [|reflexivity].
    destruct (mapM g l) as [ys|]; reflexivity.
  - intros a b [<-|Hin] H0; apply Hk; auto.
    + left. reflexivity.
    + right. eapply Permutation_in; [apply sorted_list_perm | exact Hin].
Qed.
End MapSorted.

Lemma _create_tree_item_unfold (f : FolderInfo) (total : Z) :
  _create_tree_item f total =
  match calculate_percentage (total_size f) total with
  | None => None
  | Some percentage =>
      match mapM (fun child => _create_tree_item child total) (children f) with
      | None => None
      | Some items =>
          Some (mkTreeItem
                  [display_name f; format_size (total_size f);
                   percentage_str percentage]
                  f
                  (sorted_list items (fun it => total_size (item_data it)) true)
                  false)
      end
  end.
Proof. destruct f as [p s cs]. reflexivity. Qed.

Lemma _create_tree_item_data (f : FolderInfo) (total : Z) (it : TreeItem) :
  _create_tree_item f total = Some it -> item_data it = f.
Proof.
  rewrite _create_tree_item_unfold.
  destruct (calculate_percentage (total_size f) total); [|discriminate].
  destruct (mapM _ (children f)); [|discriminate].
  intros H. injection H as <-. reflexivity.
Qed.

(** The source's form of [_create_tree_item]: the items of the sorted
    children, created in that order. *)
Lemma _create_tree_item_eq (f : FolderInfo) (total : Z) :
  _create_tree_item f total =
  match calculate_percentage (total_size f) total with
  | None => None
  | Some percentage =>
      match mapM (fun child => _create_tree_item child total)
                 (sorted_list (children f) total_size true) with
      | None => None
      | Some items =>
          Some (mkTreeItem
                  [display_name f; format_size (total_size f);
                   percentage_str percentage]
                  f items false)
      end
  end.
Proof.
  rewrite _create_tree_item_unfold.
  destruct (calculate_percentage (total_size f) total); [|reflexivity].
  rewrite (mapM_sorted_list (fun child => _create_tree_item child total)
             total_size (fun it => total_size (item_data it)) true).
  - destruct (mapM _ (children f)); reflexivity.
  - intros a b _ H. rewrite (_create_tree_item_data a total b H). reflexivity.
Qed.

Lemma flat_map_Forall2_perm {A B C : Type} (u : A -> list C) (v : B -> list C)
  (l : list A) (l' : list B) :
  Forall2 (fun a b => Permutation (v b) (u a)) l l' ->
  Permutation (flat_map v l') (flat_map u l).
Proof.
  induction 1 as [|a b l l' Hab _ IH]; simpl.
  - apply perm_nil.
  - apply Permutation_app; assumption.
Qed.

Lemma calculate_percentage_some (size total : Z) :
  exists q, calculate_percentage size total = Some q.
Proof.
  unfold calculate_percentage, truediv.
  destruct (Z.gtb_spec total 0) as [H|H]; [|eexists; reflexivity].
  assert (E : (total =? 0)%Z = false) by (apply Z.eqb_neq; lia).
  rewrite E. eexists. reflexivity.
Qed.

Lemma percentage_str_whole (total : Z) :
  (0 < total)%Z ->
  option_map percentage_str (calculate_percentage total total) = Some "100.0%".
Proof.
  intros H. rewrite (calculate_percentage_positive total total H).
  cbn [option_map]. f_equal. unfold percentage_str.
  rewrite (format_1f_compat _ 100%Q); [reflexivity|].
  field. change 0%Q with (inject_Z 0). rewrite inject_Z_injective. lia.
Qed.

Lemma percentage_str_nothing (size total : Z) :
  (total <= 0)%Z ->
  option_map percentage_str (calculate_percentage size total) = Some "0.0%".
Proof.
  intros H. unfold calculate_percentage.
  destruct (Z.gtb_spec total 0) as [Hgt|_]; [lia|]. reflexivity.
Qed.

Lemma tree_item_mirror (f : FolderInfo) :
  forall total,
  exists it,
    _create_tree_item f total = Some it /\
    Permutation (item_nodes it) (nodes f) /\
    ItemsSorted it.
Proof.
  induction f as [p s cs IH] using FolderInfo_ind'. intros total.
  set (f := mkFolderInfo p s cs).
  destruct (calculate_percentage_some (total_size f) total) as [pct Epct].
  destruct (mapM_exists (fun child => _create_tree_item child total)
              (fun child it => Permutation (item_nodes it) (nodes child) /\
                               ItemsSorted it) cs)
    as (items & Eitems & Hitems).
  { eapply Forall_impl; [|exact IH]. intros c Hc.
    destruct (Hc total) as (it & E & HP & HS). exists it. auto. }
  eexists. split.
  { rewrite _create_tree_item_unfold, Epct. cbn [children f]. rewrite Eitems.
    reflexivity. }
  set (key' := fun it : TreeItem => total_size (item_data it)).
  assert (Hperm : Permutation (sorted_list items key' true) items)
    by apply sorted_list_perm.
  split.
  - cbn [item_nodes nodes f]. apply perm_skip.
    apply perm_trans with (flat_map item_nodes items).
    + apply Permutation_flat_map. exact Hperm.
    + apply flat_map_Forall2_perm.
      eapply Forall2_impl; [|exact Hitems]. intros a b [H _]. exact H.
  - constructor.
    + eapply StronglySorted_weaken; [|apply sorted_list_strongly].
      intros a b H. unfold key_order, in_order in H. apply Z.leb_le. exact H.
    + eapply Permutation_Forall; [apply Permutation_sym, Hperm|].
      clear - Hitems. induction Hitems as [|a b l l' [_ H] _ IHl]; constructor;
        assumption.
Qed.

(** X10: the tree view mirrors the scanned tree.  [_create_tree_item]
    never raises; its item stores the folder it was made for, starts
    collapsed and has three columns: the display name, the formatted total
    size and the percentage of [total], which reads 100.0% when [total] is
    the folder's own positive total and 0.0% when [total] is not positive.
    Below it, every node of the folder is stored in exactly one item, and
    at every level the items come largest first, made from the sorted
    children in that order. *)
Theorem tree_item_mirrors_folder (f : FolderInfo) (total : Z) :
  exists it,
    _create_tree_item f total = Some it /\
    item_data it = f /\ item_expanded it = false /\
    (exists pct,
        item_columns it =
          [display_name f; format_size (total_size f); pct] /\
        ((0 < total)%Z -> total_size f = total -> pct = "100.0%") /\
        ((total <= 0)%Z -> pct = "0.0%")) /\
    mapM (fun child => _create_tree_item child total)
         (sorted_list (children f) total_size true) =
      Some (item_children it) /\
    Permutation (item_nodes it) (nodes f) /\
    ItemsSorted it.
Proof.
  destruct (tree_item_mirror f total) as (it & E & HP & HS).
  exists it. split; [exact E|].
  pose proof E as E'. rewrite _create_tree_item_eq in E'.
  pose proof (percentage_str_whole total) as Hw.
  pose proof (percentage_str_nothing (total_size f) total) as Hn.
  destruct (calculate_percentage (total_size f) total) as [pct|] eqn:Epct;
    [|discriminate E'].
  destruct (mapM _ (sorted_list (children f) total_size true)) as [items|];
    [|discriminate E'].
  injection E' as <-. cbn [item_data item_expanded item_columns item_children].
  split; [reflexivity|]. split; [reflexivity|]. split.
  { exists (percentage_str pct). split; [reflexivity|]. split.
    - intros Hpos Heq. rewrite Heq in Epct. rewrite Epct in Hw.
      specialize (Hw Hpos). injection Hw as Hw. exact Hw.
    - intros Hle. specialize (Hn Hle). injection Hn as Hn. exact Hn. }
  split; [reflexivity|]. split; assumption.
Qed.

Lemma tree_item_mirrors_folder_witness :
  exists it,
    _create_tree_item (mkFolderInfo "/data" 0 [child_b; child_a]) 4 = Some it /\
    item_columns it = ["data"; "4.0 B"; "100.0%"] /\
    map item_data (item_children it) = [child_a; child_b].
Proof.
  destruct (tree_item_mirrors_folder (mkFolderInfo "/data" 0 [child_b; child_a]) 4)
    as (it & E & _ & _ & (pct & Ecols & Hfull & _) & _).
  exists it. split; [exact E|]. split.
  - rewrite Ecols, (Hfull eq_refl eq_refl). reflexivity.
  - vm_compute in E. injection E as <-. reflexivity.
Defined.

Lemma details_row_some (total : Z) (child : FolderInfo) :
  exists row,
    details_row total child = Some row /\
    size_item_data row = child /\
    name_item row = display_name child /\
    size_item row = format_size (total_size child) /\
    option_map percentage_str
      (calculate_percentage (total_size child) total) =
      Some (percentage_item row).
Proof.
  unfold details_row.
  destruct (calculate_percentage_some (total_size child) total) as [q ->].
  eexists. repeat split.
Qed.

(** X11: the details table lists every child once, largest first.
    [_populate_details_table] never raises; the folders stored in its
    rows, top to bottom, are the children in descending order of total
    size, children of equal size in scan order; each row shows its child's
    display name, formatted total size and percentage of [total], and
    every percentage reads 0.0% when [total] is not positive. *)
Theorem details_table_rows (f : FolderInfo) (total : Z) :
  exists rows,
    _populate_details_table f total = Some rows /\
    map size_item_data rows = sorted_list (children f) total_size true /\
    Permutation (map size_item_data rows) (children f) /\
    StronglySorted (fun a b => (total_size b <= total_size a)%Z)
                   (map size_item_data rows) /\
    (forall k : Z,
        filter (fun c => (total_size c =? k)%Z) (map size_item_data rows) =
        filter (fun c => (total_size c =? k)%Z) (children f)) /\
    Forall (fun row =>
              name_item row = display_name (size_item_data row) /\
              size_item row = format_size (total_size (size_item_data row)) /\
              option_map percentage_str
                (calculate_percentage (total_size (size_item_data row)) total) =
                Some (percentage_item row)) rows /\
    ((total <= 0)%Z -> Forall (fun row => percentage_item row = "0.0%") rows).
Proof.
  unfold _populate_details_table.
  set (s := sorted_list (children f) total_size true).
  destruct (mapM_exists (details_row total)
              (fun child row =>
                 size_item_data row = child /\
                 name_item row = display_name child /\
                 size_item row = format_size (total_size child) /\
                 option_map percentage_str
                   (calculate_percentage (total_size child) total) =
                   Some (percentage_item row)) s)
    as (rows & E & Hrows).
  { apply Forall_forall. intros c _. apply details_row_some. }
  exists rows. split; [exact E|].
  assert (Hdata : map size_item_data rows = s).
  { clear E. induction Hrows as [|c r l l' (H & _) _ IH]; simpl;
      [reflexivity | rewrite H, IH; reflexivity]. }
  assert (Hall : Forall (fun row =>
              name_item row = display_name (size_item_data row) /\
              size_item row = format_size (total_size (size_item_data row)) /\
              option_map percentage_str
                (calculate_percentage (total_size (size_item_data row)) total) =
                Some (percentage_item row)) rows).
  { clear E Hdata. induction Hrows as [|c r l l' (H1 & H2 & H3 & H4) _ IH];
      constructor; [|exact IH].
    rewrite H1. auto. }
  split; [exact Hdata|]. rewrite Hdata.
  split; [apply sorted_list_perm|]. split.
  { eapply StronglySorted_weaken; [|apply sorted_list_strongly].
    intros a b H. unfold key_order, in_order in H. apply Z.leb_le. exact H. }
  split; [intros k; apply sorted_list_stable|].
  split; [exact Hall|].
  intros Hle. eapply Forall_impl; [|exact Hall].
  intros row (_ & _ & H).
  rewrite (percentage_str_nothing _ total Hle) in H.
  injection H as H. symmetry. exact H.
Qed.

Lemma details_table_rows_witness :
  option_map (map percentage_item)
    (_populate_details_table (mkFolderInfo "/data" 0 [child_b; child_a]) 0) =
  Some ["0.0%"; "0.0%"].
Proof.
  destruct (details_table_rows (mkFolderInfo "/data" 0 [child_b; child_a]) 0)
    as (rows & E & Hdata & _ & _ & _ & _ & Hzero).
  rewrite E. cbn [option_map]. f_equal.
  specialize (Hzero ltac:(lia)).
  destruct rows as [|r1 [|r2 [|r3 rows]]]; try discriminate Hdata.
  inversion Hzero as [|? ? H1 Hz']; subst. inversion Hz' as [|? ? H2 _]; subst.
  cbn [map]. rewrite H1, H2. reflexivity.
Defined.

Example details_table_example :
  _populate_details_table (mkFolderInfo "/data" 0 [child_b; child_a]) 4 =
  Some [ {| name_item := "videos"; size_item := "3.0 B";
            size_item_data := child_a; percentage_item := "75.0%" |};
         {| name_item := "notes.txt"; size_item := "1.0 B";
            size_item_data := child_b; percentage_item := "25.0%" |} ].
Proof. reflexivity. Qed.

(* ------------------------------------------------------------------ *)
(** *** The main window *)



Lemma populate_details_table_some (f : FolderInfo) (total : Z) :
  exists rows,
    _populate_details_table f total = Some rows /\
    map size_item_data rows = sorted_list (children f) total_size true.
Proof.
  unfold _populate_details_table.
  destruct (mapM_exists (details_row total)
              (fun child row => size_item_data row = child)
              (sorted_list (children f) total_size true))
    as (rows & E & Hrows).
  { apply Forall_forall. intros c _.
    destruct (details_row_some total c) as (row & Er & Hd & _).
    exists row. auto. }
  exists rows. split; [exact E|].
  clear E. induction Hrows as [|c r l l' H _ IH]; simpl;
    [reflexivity | rewrite H, IH; reflexivity].
Qed.

Lemma rows_sorted (f : FolderInfo) (total : Z) (rows : list Row) :
  _populate_details_table f total = Some rows ->
  StronglySorted (fun a b => (total_size b <= total_size a)%Z)
                 (map size_item_data rows).
Proof.
  intros E. destruct (populate_details_table_some f total) as (rows' & E' & H).
  rewrite E in E'. injection E' as <-. rewrite H.
  eapply StronglySorted_weaken; [|apply sorted_list_strongly].
  intros a b Hab. unfold key_order, in_order in Hab. apply Z.leb_le. exact Hab.
Qed.

Lemma display_treemap_some (tw : TreemapWidget) (f : option FolderInfo) :
  exists tw',
    display_treemap tw f = Some tw' /\
    widget_folder_info tw' = f /\
    widget_width tw' = widget_width tw /\
    widget_height tw' = widget_height tw.
Proof.
  destruct f as [f|].
  - eexists. split; [apply display_treemap_result|]. repeat split.
  - eexists. split; [reflexivity|]. repeat split.
Qed.

Lemma resizeEvent_some (tw : TreemapWidget) (w h : Z) :
  exists tw', resizeEvent tw w h = Some tw'.
Proof.
  unfold resizeEvent. cbn [widget_folder_info].
  destruct (widget_folder_info tw) as [f|].
  - destruct (display_treemap_some
                {| widget_scene := widget_scene tw;
                   widget_folder_info := Some f;
                   widget_width := w; widget_height := h |} (Some f))
      as (tw' & E & _).
    exists tw'. exact E.
  - eexists. reflexivity.
Qed.

(** What [_display_folder] leaves on screen for a folder. *)
Lemma _display_folder_some (self : App.DiskAnalyzerApp) (f : FolderInfo) :
  exists root_item rows tw,
    _create_tree_item f (total_size f) = Some root_item /\
    _populate_details_table f (total_size f) = Some rows /\
    display_treemap (App.treemap_widget self) (Some f) = Some tw /\
    App._display_folder self (Some f) =
    Some (App.set_views self
            (App.folder_sign ++ " " ++ display_name f)%string
            [setExpanded root_item true] rows tw).
Proof.
  destruct (tree_item_mirror f (total_size f)) as (it & Eit & _).
  destruct (populate_details_table_some f (total_size f)) as (rows & Erows & _).
  destruct (display_treemap_some (App.treemap_widget self) (Some f))
    as (tw & Etw & _).
  exists it, rows, tw. repeat split; try assumption.
  unfold App._display_folder. rewrite Eit, Erows.
  cbn [App.set_views App.treemap_widget]. rewrite Etw. reflexivity.
Qed.

Lemma zoom_some (self : App.DiskAnalyzerApp) (f : FolderInfo) :
  exists self',
    App.zoom self f = Some self' /\
    App.select_folder_btn_enabled self' = App.select_folder_btn_enabled self /\
    App.progress_bar_visible self' = App.progress_bar_visible self /\
    App.tree_view self' = App.tree_view self /\
    App.details_table self' = App.details_table self.
Proof.
  unfold App.zoom. destruct (children f) as [|c cs] eqn:E.
  - exists self. repeat split.
  - destruct (display_treemap_some (App.treemap_widget self)
                (Some (mkFolderInfo (path f) 0 (c :: cs)))) as (tw & -> & _).
    eexists. split; [reflexivity|]. repeat split.
Qed.

Lemma step_consistent (self : App.DiskAnalyzerApp) (ev : App.Event) :
  App.consistent self ->
  exists self', App.step self ev = Some self' /\ App.consistent self'.
Proof.
  intros (Hbtn & Htree & Hrows).
  destruct ev as [r folder schedule | [msg | f | msg] | item | f | w h];
    cbn [App.step App.deliver].
  - eexists. split; [reflexivity|].
    unfold App._on_select_folder. destruct (String.eqb folder "").
    + repeat split; assumption.
    + repeat split; assumption.
  - eexists. split; [reflexivity|]. repeat split; assumption.
  - unfold App._on_scan_finished.
    destruct (_display_folder_some (App.set_current_folder self (Some f)) f)
      as (it & rows & tw & _ & Erows & _ & ->).
    eexists. split; [reflexivity|]. repeat split.
    + simpl. lia.
    + exact (rows_sorted _ _ _ Erows).
  - eexists. split; [reflexivity|]. repeat split; assumption.
  - unfold App._on_tree_item_clicked.
    destruct (populate_details_table_some (item_data item)
                (total_size (item_data item))) as (rows & Erows & _).
    rewrite Erows.
    destruct (zoom_some
                (App.set_views self (App.current_folder_label self)
                   (App.tree_view self) rows (App.treemap_widget self))
                (item_data item))
      as (self' & -> & E1 & E2 & E3 & E4).
    eexists. split; [reflexivity|]. unfold App.consistent.
    rewrite E1, E2, E3, E4. cbn [App.set_views App.select_folder_btn_enabled
      App.progress_bar_visible App.tree_view App.details_table].
    repeat split; try assumption.
    exact (rows_sorted _ _ _ Erows).
  - unfold App._on_treemap_folder_selected.
    destruct (zoom_some self f) as (self' & -> & E1 & E2 & E3 & E4).
    eexists. split; [reflexivity|]. unfold App.consistent.
    rewrite E1, E2, E3, E4. repeat split; assumption.
  - destruct (resizeEvent_some (App.treemap_widget self) w h) as (tw & ->).
    eexists. split; [reflexivity|]. repeat split; assumption.
Qed.

(** X12: whatever reaches the window, in any order (folders chosen,
    signals of workers, clicks on the tree and on the treemap, resizes),
    no handler raises, and afterwards the Select button is enabled exactly
    when the progress bar is hidden, the tree view has at most one
    top-level item, and the rows of the details table come largest
    first. *)
Theorem window_always_consistent (w0 h0 : Z) (evs : list App.Event) :
  exists self,
    App.steps (App.init w0 h0) evs = Some self /\ App.consistent self.
Proof.
  assert (G : forall evs self, App.consistent self ->
                exists self', App.steps self evs = Some self' /\
                              App.consistent self').
  { clear. induction evs as [|ev evs IH]; intros self Hc.
    - exists self. split; [reflexivity | exact Hc].
    - destruct (step_consistent self ev Hc) as (self1 & E1 & Hc1).
      destruct (IH self1 Hc1) as (self2 & E2 & Hc2).
      exists self2. split; [|exact Hc2].
      cbn [App.steps]. rewrite E1. exact E2. }
  apply G. repeat split; simpl; [lia | constructor].
Qed.



Example scan_session_example :
  option_map (fun self => (App.status_message self,
                           map item_columns (App.tree_view self),
                           map percentage_item (App.details_table self),
                           List.length (widget_scene (App.treemap_widget self))))
    (App.scan_session (App.init 800 600) "/data" (Some example_tree) None) =
  Some ("Scan complete", [["data"; "107.0 B"; "100.0%"]],
        ["93.5%"; "6.5%"; "0.0%"], 3%nat).
Proof. reflexivity. Qed.

Lemma virtual_root_is_folder (f : FolderInfo) :
  FilesAreLeaves f -> children f <> [] ->
  mkFolderInfo (path f) 0 (children f) = f.
Proof.
  intros H Hc. inversion H as [p s cs [Hs|Hs] _]; subst; cbn in *.
  - reflexivity.
  - contradiction Hc. reflexivity.
Qed.

(** X14: zooming.  A click on a treemap rectangle or on a tree item whose
    folder has no children leaves the treemap as it is.  For a folder with
    children in a tree where only leaves carry bytes, as every scanned
    tree is, the treemap then shows exactly what [display_treemap] shows
    for that folder; a click on the treemap changes nothing else, a click
    on the tree item also fills the table with the folder's children
    against the folder's own total. *)
Theorem zoom_shows_folder (self : App.DiskAnalyzerApp) (f : FolderInfo) :
  (children f = [] ->
   App._on_treemap_folder_selected self f = Some self) /\
  (FilesAreLeaves f -> children f <> [] ->
   exists tw rows,
     display_treemap (App.treemap_widget self) (Some f) = Some tw /\
     _populate_details_table f (total_size f) = Some rows /\
     App._on_treemap_folder_selected self f =
       Some (App.set_views self (App.current_folder_label self)
               (App.tree_view self) (App.details_table self) tw) /\
     forall item, item_data item = f ->
       App._on_tree_item_clicked self item =
       Some (App.set_views self (App.current_folder_label self)
               (App.tree_view self) rows tw)).
Proof.
  split.
  - intros Hc. unfold App._on_treemap_folder_selected, App.zoom.
    rewrite Hc. reflexivity.
  - intros HL Hc.
    destruct (display_treemap_some (App.treemap_widget self) (Some f))
      as (tw & Etw & _).
    destruct (populate_details_table_some f (total_size f))
      as (rows & Erows & _).
    exists tw, rows. split; [exact Etw|]. split; [exact Erows|].
    pose proof (virtual_root_is_folder f HL Hc) as Hv.
    split.
    + unfold App._on_treemap_folder_selected, App.zoom.
      destruct (children f) as [|c cs] eqn:E; [contradiction Hc; reflexivity|].
      rewrite Hv, Etw. reflexivity.
    + intros item <-. unfold App._on_tree_item_clicked, App.zoom.
      rewrite Erows.
      destruct (children (item_data item)) as [|c cs] eqn:E;
        [contradiction Hc; reflexivity|].
      rewrite Hv. cbn [App.set_views App.treemap_widget]. rewrite Etw.
      reflexivity.
Qed.

Lemma zoom_shows_folder_witness :
  App._on_treemap_folder_selected (App.init 800 600) child_b =
    Some (App.init 800 600) /\
  exists tw,
    display_treemap (TreemapWidget_init 800 600) (Some child_a) = Some tw /\
    option_map App.treemap_widget
      (App._on_treemap_folder_selected (App.init 800 600) child_a) = Some tw.
Proof.
  split.
  - apply (zoom_shows_folder (App.init 800 600) child_b). reflexivity.
  - destruct (proj2 (zoom_shows_folder (App.init 800 600) child_a))
      as (tw & rows & Etw & _ & Ez & _).
    + constructor; [left; reflexivity|].
      constructor; [|constructor].
      constructor; [right; reflexivity | constructor].
    + discriminate.
    + exists tw. split; [exact Etw|]. rewrite Ez. reflexivity.
Defined.

(* ------------------------------------------------------------------ *)
(** *** More on the scanner and on the layout *)

Lemma scan_items_unqueryable (path : string) (es : list (string * Node)) :
  existsb is_NoAccess es = true ->
  forall self acc, snd (scan_items self path es acc) = None.
Proof.
  induction es as [|[nm item] es IH]; intros H self acc; [discriminate H|].
  rewrite scan_items_cons. cbn [existsb] in H.
  destruct item as [[sz|] | l | | ]; cbn [is_NoAccess snd orb] in H;
    try (apply IH; exact H).
  reflexivity.
Qed.

(** X15: one entry that cannot be queried empties its directory.  When a
    listing holds an entry whose [is_file()] raises, the node of that
    directory has no children at all, whatever else the listing holds. *)
Theorem unqueryable_entry_empties_directory (self : DiskScanner)
  (pth : string) (es : list (string * Node)) :
  existsb is_NoAccess es = true ->
  snd (_scan_folder self pth (Directory (Some es))) = mkFolderInfo pth 0 [].
Proof.
  intros H. rewrite _scan_folder_eq.
  destruct (read_cancelled self) as [[|] self0]; [reflexivity|].
  cbn [iterdir].
  pose proof (scan_items_unqueryable pth es H self0 []) as E.
  destruct (scan_items self0 pth es []) as [s' r]. simpl in E. subst r.
  reflexivity.
Qed.

Lemma unqueryable_entry_empties_directory_witness :
  snd (_scan_folder unstopped "/data"
         (Directory (Some [("a.bin", RegularFile (Some 100%N));
                           ("odd", NoAccess)]))) =
  mkFolderInfo "/data" 0 [].
Proof.
  apply (unqueryable_entry_empties_directory unstopped "/data").
  reflexivity.
Defined.

Local Open Scope Q_scope.

(** X16: a call with nothing to lay out does nothing.  With no children,
    or with bounds whose width or height is not positive, [_draw_treemap]
    returns without adding to the scene and without creating a list. *)
Theorem layout_nothing_to_draw (st : Store) (scene : Scene) (items : ref)
  (x y width height : Q) (total : Z) :
  deref st items = [] \/ width <= 0 \/ height <= 0 ->
  _draw_treemap st scene items x y width height total = Some (st, scene).
Proof.
  intros H.
  destruct (_draw_treemap_result st scene items x y width height total)
    as (st' & produced & E & _ & _ & Hdeg).
  destruct (Hdeg H) as [-> ->]. rewrite app_nil_r in E. exact E.
Qed.

Lemma layout_nothing_to_draw_witness :
  _draw_treemap [[child_a; child_b]] [] 0%nat 20 20 0 10 4 =
  Some ([[child_a; child_b]], []).
Proof.
  apply (layout_nothing_to_draw [[child_a; child_b]] [] 0%nat 20 20 0 10 4).
  right. left. discriminate.
Defined.

(** X17: where a label sits.  In a call on bounds with a positive width
    and height, the text of every label is anchored strictly inside the
    rectangle it belongs to, its width is more than 30, and from the
    anchor it ends before the rectangle's far side plus the spacing, that
    is, in a horizontal layout, before the place where the next rectangle
    starts. *)
Theorem label_inside_rectangle (st : Store) (scene : Scene) (items : ref)
  (x y width height : Q) (total : Z) :
  0 < width -> 0 < height ->
  exists st' produced,
    _draw_treemap st scene items x y width height total =
      Some (st', scene ++ produced) /\
    forall P t, In P produced -> label P = Some t ->
      rect_x P < pos_x t /\ pos_x t < rect_x P + rect_w P /\
      rect_y P < pos_y t /\ pos_y t < rect_y P + rect_h P /\
      30 < text_width t /\
      pos_x t + text_width t < rect_x P + rect_w P + spacing.
Proof.
  intros Hw Hh.
  destruct (_draw_treemap_result st scene items x y width height total)
    as (st' & produced & E & _ & Hpos & _).
  specialize (Hpos Hw Hh).
  exists st', produced. split; [exact E|].
  intros P t HP Ht. rewrite Hpos in HP.
  destruct (places_label _ _ _ _ _ _ _ _ HP) as (Ew & Eh & El).
  rewrite El in Ht. unfold add_label in Ht.
  set (iw := item_width (Qle_bool height width) width total (folder_info P)) in *.
  set (ih := item_height (Qle_bool height width) height total (folder_info P)) in *.
  destruct (Qgtb iw 40) eqn:Gw; [|discriminate Ht].
  destruct (Qgtb ih 30) eqn:Gh; [|discriminate Ht].
  apply Qgtb_gt in Gw, Gh.
  cbn [andb] in Ht. injection Ht as <-.
  cbn [pos_x pos_y text_width]. rewrite Ew, Eh.
  assert (Hsp : spacing == 5) by reflexivity.
  destruct (Qle_bool height width); repeat split; lra.
Qed.

Lemma label_inside_rectangle_witness :
  exists st' produced,
    _draw_treemap [[child_a; child_b]] [] 0%nat 20 20 100 40 4 =
      Some (st', [] ++ produced) /\
    forall P t, In P produced -> label P = Some t ->
      rect_x P < pos_x t /\ pos_x t < rect_x P + rect_w P /\
      rect_y P < pos_y t /\ pos_y t < rect_y P + rect_h P /\
      30 < text_width t /\
      pos_x t + text_width t < rect_x P + rect_w P + spacing.
Proof.
  apply (label_inside_rectangle [[child_a; child_b]] [] 0%nat 20 20 100 40 4);
    reflexivity.
Defined.
